(** * A shallow embedding of jmkeyes/ringbuffer (ringbuffer.c, ringbuffer.h)

    The C code works on [unsigned long] offsets and sizes, on [long]
    amounts and results, and on a byte array.  The embedding keeps integers
    in [Z] and writes every wrap-around and every signed/unsigned
    conversion out (LP64: both types are 64 bits wide).  The ring buffer
    structure is a record, the storage area a list of bytes, and the
    functions pass the program state (the structure behind the handle and
    [errno]) explicitly. *)

From Stdlib Require Import ZArith Lia Bool.
From stdpp Require Import base list.

Local Open Scope Z_scope.

(** ** Machine integers *)

Module CInt.

(** Value of an [unsigned long] after reduction modulo [2^64]. *)
Definition u64 (x : Z) : Z := x mod 2 ^ 64.

(** Conversion of an integer to [long] (two's complement). *)
Definition to_long (x : Z) : Z :=
  if u64 x <? 2 ^ 63 then u64 x else u64 x - 2 ^ 64.

(** The values an [unsigned long] can hold. *)
Definition is_ulong (x : Z) : Prop := 0 <= x < 2 ^ 64.

End CInt.
Export CInt.

(** ** [next_power_of_two] (ringbuffer.c, lines 11-22) *)

Definition next_power_of_two (size : Z) : Z :=
  let size := u64 (size - 1) in
  let size := Z.lor size (Z.shiftr size 1) in
  let size := Z.lor size (Z.shiftr size 2) in
  let size := Z.lor size (Z.shiftr size 4) in
  let size := Z.lor size (Z.shiftr size 8) in
  let size := Z.lor size (Z.shiftr size 16) in
  let size := Z.lor size (Z.shiftr size 32) in
  let size := u64 (size + 1) in
  size.

(** One line of the bit smearing: [size |= (size >> k)]. *)
Definition smear (k y : Z) : Z := Z.lor y (Z.shiftr y k).

(** [top_run m n y]: no bit of [y] above position [m] is set, and the [n]
    positions ending at [m] are all set. *)
Definition top_run (m n y : Z) : Prop :=
  (forall i, m < i -> Z.testbit y i = false) /\
  (forall i, 0 <= i -> m - n < i <= m -> Z.testbit y i = true).

(** ** Error numbers (errno.h; Linux values, where [EWOULDBLOCK] is
    [EAGAIN]) *)

Module Errno.
Definition EAGAIN : Z := 11.
Definition EWOULDBLOCK : Z := 11.
Definition ENOMEM : Z := 12.
Definition EINVAL : Z := 22.
End Errno.
Export Errno.

(** ** The data model (ringbuffer.h) *)

Abbreviation byte := Byte.byte.

Record ringbuffer : Type := mk_ringbuffer {
  size : Z;               (* unsigned long: allocated buffer size *)
  read_offset : Z;        (* unsigned long: buffer read index *)
  write_offset : Z;       (* unsigned long: buffer write index *)
  storage : list byte     (* unsigned char *: data storage area *)
}.

Definition set_size (v : Z) (rb : ringbuffer) : ringbuffer :=
  mk_ringbuffer v (read_offset rb) (write_offset rb) (storage rb).
Definition set_read_offset (v : Z) (rb : ringbuffer) : ringbuffer :=
  mk_ringbuffer (size rb) v (write_offset rb) (storage rb).
Definition set_write_offset (v : Z) (rb : ringbuffer) : ringbuffer :=
  mk_ringbuffer (size rb) (read_offset rb) v (storage rb).
Definition set_storage (v : list byte) (rb : ringbuffer) : ringbuffer :=
  mk_ringbuffer (size rb) (read_offset rb) (write_offset rb) v.

(** A handle [struct ringbuffer *] is [None] when it is [NULL] and
    otherwise carries the structure it points to; a function that writes
    through the handle returns the updated structure. *)
Abbreviation handle := (option ringbuffer).

(** ** libc memory primitives *)

(** [memcpy (dst + doff, src + soff, n)].  The C call is defined only when
    both ranges lie inside their objects; the results below ask for that. *)
Definition memcpy (dst : list byte) (doff : Z) (src : list byte) (soff n : Z)
  : list byte :=
  take (Z.to_nat doff) dst
  ++ take (Z.to_nat n) (drop (Z.to_nat soff) src)
  ++ drop (Z.to_nat (doff + n)) dst.

(** [memset (dst + doff, c, n)]. *)
Definition memset (dst : list byte) (doff : Z) (c : byte) (n : Z) : list byte :=
  take (Z.to_nat doff) dst
  ++ replicate (Z.to_nat n) c
  ++ drop (Z.to_nat (doff + n)) dst.

(** ** Creation and flushing *)

(** [ringbuffer_create] (lines 34-50).  The two [malloc] calls are inputs:
    [block] is the fresh control block with its indeterminate contents (or
    [None] when the allocation fails) and [alloc n] the fresh storage of
    [n] bytes.  The result is the return value, the handle stored at [*rb]
    and [errno]. *)
Definition ringbuffer_create (block : option ringbuffer)
    (alloc : Z -> option (list byte)) (size : Z) (errno : Z)
  : Z * handle * Z :=
  match block with
  | None => (-1, None, ENOMEM)
  | Some rb =>
      let size := next_power_of_two size in
      let rb := set_size size rb in
      match alloc size with
      | None => (-1, Some rb, ENOMEM)
      | Some st => (0, Some (set_storage st rb), errno)
      end
  end.

(** [ringbuffer_flush] (lines 81-93). *)
Definition ringbuffer_flush (rb : handle) (fill : byte) (errno : Z)
  : Z * handle * Z :=
  match rb with
  | None => (-1, None, EINVAL)
  | Some rb =>
      let rb := set_storage (memset (storage rb) 0 fill (size rb)) rb in
      let rb := set_read_offset 0 rb in
      let rb := set_write_offset 0 rb in
      (0, Some rb, errno)
  end.

(** ** Counting *)

(** [ringbuffer_fill_count] (lines 103-118): return value and [errno]. *)
Definition ringbuffer_fill_count (rb : handle) (errno : Z) : Z * Z :=
  let bytes := 0 in
  match rb with
  | None => (-1, EINVAL)
  | Some rb =>
      let bytes :=
        if write_offset rb >=? read_offset rb then
          to_long (u64 (write_offset rb - read_offset rb))
        else if write_offset rb <? read_offset rb then
          to_long (u64 (u64 (write_offset rb + size rb) - read_offset rb))
        else bytes in
      (bytes, errno)
  end.

(** [ringbuffer_free_count] (lines 129-136). *)
Definition ringbuffer_free_count (rb : handle) (errno : Z) : Z * Z :=
  match rb with
  | None => (-1, EINVAL)
  | Some rb0 =>
      let '(fill, errno) := ringbuffer_fill_count rb errno in
      (to_long (u64 (size rb0 - fill)), errno)
  end.

(** ** Memory transfers *)

(** Result of a memory transfer: return value, structure behind the
    handle, caller's buffer, [errno]. *)
Record mem_result : Type := mk_mem_result {
  m_ret : Z;
  m_rb : handle;
  m_buf : option (list byte);
  m_errno : Z
}.

(** [ringbuffer_write_memory] (lines 150-185): copies out of the ring
    buffer into [ptr] ([None] for a [NULL] pointer).  The amount is a
    [long], as the definition in ringbuffer.c has it (the prototype in
    ringbuffer.h says [unsigned long]). *)
Definition ringbuffer_write_memory (rb : handle) (ptr : option (list byte))
    (amount : Z) (errno : Z) : mem_result :=
  let buffer := ptr in
  match rb with
  | None => mk_mem_result (-1) None ptr EINVAL
  | Some rb =>
      if amount >? to_long (size rb) then
        mk_mem_result (-1) (Some rb) ptr ENOMEM
      else
        let '(fill, errno) := ringbuffer_fill_count (Some rb) errno in
        let '(amount, errno) :=
          if amount >? fill then ringbuffer_fill_count (Some rb) errno
          else (amount, errno) in
        let buffer :=
          match buffer with
          | Some buffer =>
              let idx := read_offset rb in
              let end_ := Z.land (u64 (read_offset rb + amount)) (u64 (size rb - 1)) in
              let max := size rb in
              if idx <? end_ then
                Some (memcpy buffer 0 (storage rb) idx (end_ - idx))
              else if idx >? end_ then
                let buffer := memcpy buffer 0 (storage rb) idx (max - idx) in
                Some (memcpy buffer (max - idx) (storage rb) 0 end_)
              else Some buffer
          | None => None
          end in
        let rb := set_read_offset (u64 (read_offset rb + amount)) rb in
        let rb := set_read_offset (Z.land (read_offset rb) (u64 (size rb - 1))) rb in
        mk_mem_result amount (Some rb) buffer errno
  end.

(** [ringbuffer_read_memory] (lines 200-235): copies from [ptr] into the
    ring buffer. *)
Definition ringbuffer_read_memory (rb : handle) (ptr : option (list byte))
    (amount : Z) (errno : Z) : mem_result :=
  let buffer := ptr in
  match rb with
  | None => mk_mem_result (-1) None ptr EINVAL
  | Some rb =>
      if amount >? to_long (size rb) then
        mk_mem_result (-1) (Some rb) ptr ENOMEM
      else
        let '(free, errno) := ringbuffer_free_count (Some rb) errno in
        let '(amount, errno) :=
          if amount >? free then ringbuffer_free_count (Some rb) errno
          else (amount, errno) in
        let rb :=
          match buffer with
          | Some buffer =>
              let idx := write_offset rb in
              let end_ := Z.land (u64 (write_offset rb + amount)) (u64 (size rb - 1)) in
              let max := size rb in
              if idx <? end_ then
                set_storage (memcpy (storage rb) idx buffer 0 (end_ - idx)) rb
              else if idx >? end_ then
                let rb := set_storage (memcpy (storage rb) idx buffer 0 (max - idx)) rb in
                set_storage (memcpy (storage rb) 0 buffer (max - idx) end_) rb
              else rb
          | None => rb
          end in
        let rb := set_write_offset (u64 (write_offset rb + amount)) rb in
        let rb := set_write_offset (Z.land (write_offset rb) (u64 (size rb - 1))) rb in
        mk_mem_result amount (Some rb) ptr errno
  end.

(** ** Descriptor transfers *)

(** One [struct iovec]: [iov_base] is kept as the index into the storage
    area the segment starts at. *)
Record iovec : Type := mk_iovec { iov_base : Z; iov_len : Z }.

(** What a vectored system call hands back: its [ssize_t] result, the value
    of [errno] afterwards and, for [readv], the bytes it delivered. *)
Record sysret : Type := mk_sysret {
  sys_ret : Z;
  sys_errno : Z;
  sys_data : list byte
}.

(** The operating system: called with the descriptor, the first [count]
    entries of [iov] and the current [errno]. *)
Definition syscall : Type := Z -> list iovec -> Z -> sysret.

(** [readv] stores the delivered bytes into the segments in order. *)
Fixpoint scatter (st : list byte) (iov : list iovec) (data : list byte)
  : list byte :=
  match iov with
  | [] => st
  | v :: iov' =>
      let n := Z.min (iov_len v) (Z.of_nat (length data)) in
      scatter (memcpy st (iov_base v) data 0 n) iov' (drop (Z.to_nat n) data)
  end.

Record fd_result : Type := mk_fd_result {
  f_ret : Z;
  f_rb : handle;
  f_errno : Z
}.

(** [ringbuffer_write_fd] (lines 247-295). *)
Definition ringbuffer_write_fd (writev : syscall) (rb : handle)
    (fd : Z) (amount : Z) (errno : Z) : fd_result :=
  match rb with
  | None => mk_fd_result (-1) None EINVAL
  | Some rb =>
      if amount >? to_long (size rb) then
        mk_fd_result (-1) (Some rb) ENOMEM
      else
        let '(free, errno) := ringbuffer_free_count (Some rb) errno in
        let '(amount, errno) :=
          if amount >? free then ringbuffer_free_count (Some rb) errno
          else (amount, errno) in
        let idx := read_offset rb in
        let end_ := Z.land (u64 (read_offset rb + amount)) (u64 (size rb - 1)) in
        let max := size rb in
        let iov :=
          if idx <? end_ then [mk_iovec idx (end_ - idx)]
          else if idx >? end_ then [mk_iovec idx (max - idx); mk_iovec 0 end_]
          else [] in
        let r := writev fd iov errno in
        let bytes := u64 (sys_ret r) in
        let errno := sys_errno r in
        if bytes <=? 0 then
          if negb (errno =? EAGAIN) && negb (errno =? EWOULDBLOCK) then
            mk_fd_result (-1) (Some rb) errno
          else
            mk_fd_result (to_long bytes) (Some rb) errno
        else
          let rb := set_read_offset (u64 (read_offset rb + bytes)) rb in
          let rb := set_read_offset (Z.land (read_offset rb) (u64 (size rb - 1))) rb in
          mk_fd_result (to_long bytes) (Some rb) errno
  end.

(** [ringbuffer_read_fd] (lines 307-355). *)
Definition ringbuffer_read_fd (readv : syscall) (rb : handle)
    (fd : Z) (amount : Z) (errno : Z) : fd_result :=
  match rb with
  | None => mk_fd_result (-1) None EINVAL
  | Some rb =>
      if amount >? to_long (size rb) then
        mk_fd_result (-1) (Some rb) ENOMEM
      else
        let '(fill, errno) := ringbuffer_fill_count (Some rb) errno in
        let '(amount, errno) :=
          if amount >? fill then ringbuffer_fill_count (Some rb) errno
          else (amount, errno) in
        let idx := write_offset rb in
        let end_ := Z.land (u64 (write_offset rb + amount)) (u64 (size rb - 1)) in
        let max := size rb in
        let iov :=
          if idx <? end_ then [mk_iovec idx (end_ - idx)]
          else if idx >? end_ then [mk_iovec idx (max - idx); mk_iovec 0 end_]
          else [] in
        let r := readv fd iov errno in
        let rb := set_storage (scatter (storage rb) iov (sys_data r)) rb in
        let bytes := u64 (sys_ret r) in
        let errno := sys_errno r in
        if bytes <=? 0 then
          if negb (errno =? EAGAIN) && negb (errno =? EWOULDBLOCK) then
            mk_fd_result (-1) (Some rb) errno
          else
            mk_fd_result (to_long bytes) (Some rb) errno
        else
          let rb := set_write_offset (u64 (write_offset rb + bytes)) rb in
          let rb := set_write_offset (Z.land (write_offset rb) (u64 (size rb - 1))) rb in
          mk_fd_result (to_long bytes) (Some rb) errno
  end.

(** ** Well-formed buffers *)

(** A capacity the allocator can really hand out: a power of two below
    [2^63] (no object is larger than [PTRDIFF_MAX] bytes). *)
Definition is_capacity (n : Z) : Prop :=
  0 < n < 2 ^ 63 /\ n = 2 ^ Z.log2 n.

Record valid (rb : ringbuffer) : Prop := mk_valid {
  valid_size : is_capacity (size rb);
  valid_read : 0 <= read_offset rb < size rb;
  valid_write : 0 <= write_offset rb < size rb;
  valid_storage : Z.of_nat (length (storage rb)) = size rb
}.

(** Both offsets are equal: nothing is stored (or, by the arithmetic of
    [ringbuffer_fill_count], the storage is entirely full). *)
Definition empty (rb : ringbuffer) : Prop := read_offset rb = write_offset rb.

(** The fill level and the free space as mathematical quantities. *)
Definition fill_level (rb : ringbuffer) : Z :=
  (write_offset rb - read_offset rb) mod size rb.
Definition free_space (rb : ringbuffer) : Z := size rb - fill_level rb.

(** The storage byte at a C index. *)
Definition byte_at (l : list byte) (i : Z) : option byte := l !! Z.to_nat i.

(** A power of two. *)
Definition power_of_two (n : Z) : Prop := exists k, 0 <= k /\ n = 2 ^ k.

(** ** Auxiliary definitions for the statements *)

(** The copy out of the storage area (lines 168-179), for the clamped
    amount that leads to the index [end_]. *)
Definition copy_out (rb : ringbuffer) (buffer : list byte) (end_ : Z)
  : list byte :=
  let idx := read_offset rb in
  let max := size rb in
  if idx <? end_ then memcpy buffer 0 (storage rb) idx (end_ - idx)
  else if idx >? end_ then
    memcpy (memcpy buffer 0 (storage rb) idx (max - idx))
           (max - idx) (storage rb) 0 end_
  else buffer.

(** The copy into the storage area (lines 218-229). *)
Definition copy_in (rb : ringbuffer) (buffer : list byte) (end_ : Z)
  : list byte :=
  let idx := write_offset rb in
  let max := size rb in
  if idx <? end_ then memcpy (storage rb) idx buffer 0 (end_ - idx)
  else if idx >? end_ then
    memcpy (memcpy (storage rb) idx buffer 0 (max - idx))
           0 buffer (max - idx) end_
  else storage rb.

(** The segments that cover [c] bytes from index [off] in a storage area of
    [n] bytes: one when the span ends before the end of the storage, two
    when it wraps, none when it is empty or covers the whole storage. *)
Definition span_iov (off c n : Z) : list iovec :=
  let end_ := (off + c) mod n in
  if off <? end_ then [mk_iovec off (end_ - off)]
  else if off >? end_ then [mk_iovec off (n - off); mk_iovec 0 end_]
  else [].

Definition iov_total (iov : list iovec) : Z :=
  foldr (fun v acc => iov_len v + acc) 0 iov.

(** Whether [errno] is one of the two would-block values. *)
Definition would_block (errno : Z) : bool :=
  (errno =? EAGAIN) || (errno =? EWOULDBLOCK).

(** A descriptor that takes, or delivers, everything it is offered. *)
Definition transfer_all : syscall :=
  fun _ iov errno =>
    mk_sysret (iov_total iov) errno
      (replicate (Z.to_nat (iov_total iov)) Byte.x00).

(** ** Sequences of operations *)

(** The operations on a buffer handle, with their arguments; a descriptor
    operation carries the behaviour of the operating system at its call. *)
Inductive operation : Type :=
| Flush (fill : byte)
| FillCount
| FreeCount
| ReadInto (ptr : option (list byte)) (amount : Z)
| WriteFrom (ptr : option (list byte)) (amount : Z)
| DrainToDescriptor (writev : syscall) (fd amount : Z)
| FillFromDescriptor (readv : syscall) (fd amount : Z).

(** One operation on the handle and [errno]. *)
Definition perform (o : operation) (st : handle * Z) : handle * Z :=
  let '(rb, errno) := st in
  match o with
  | Flush fill =>
      let '(_, rb', errno') := ringbuffer_flush rb fill errno in (rb', errno')
  | FillCount => (rb, snd (ringbuffer_fill_count rb errno))
  | FreeCount => (rb, snd (ringbuffer_free_count rb errno))
  | ReadInto ptr amount =>
      let r := ringbuffer_write_memory rb ptr amount errno in
      (m_rb r, m_errno r)
  | WriteFrom ptr amount =>
      let r := ringbuffer_read_memory rb ptr amount errno in
      (m_rb r, m_errno r)
  | DrainToDescriptor writev fd amount =>
      let r := ringbuffer_write_fd writev rb fd amount errno in
      (f_rb r, f_errno r)
  | FillFromDescriptor readv fd amount =>
      let r := ringbuffer_read_fd readv rb fd amount errno in
      (f_rb r, f_errno r)
  end.

Definition perform_all (ops : list operation) (st : handle * Z) : handle * Z :=
  fold_left (fun st o => perform o st) ops st.

(** The handle points to a buffer of capacity [n] whose offsets both lie in
    [[0, n)]. *)
Definition offsets_in_range (n : Z) (h : handle) : Prop :=
  exists rb, h = Some rb /\ size rb = n /\
    0 <= read_offset rb < n /\ 0 <= write_offset rb < n.

(** ** The buffer as a queue *)

(** The bytes written but not yet read, oldest first: the [fill_level]
    bytes that follow the read offset, wrapping at the end of the
    storage. *)
Definition unread (rb : ringbuffer) : list byte :=
  take (Z.to_nat (fill_level rb))
       (drop (Z.to_nat (read_offset rb)) (storage rb ++ storage rb)).

(** The bytes a vectored write finds in the segments it is given. *)
Definition gather (st : list byte) (iov : list iovec) : list byte :=
  flat_map (fun v => take (Z.to_nat (iov_len v))
                          (drop (Z.to_nat (iov_base v)) st)) iov.

(** The segments lie inside a storage area of [n] bytes. *)
Definition iov_in_bounds (n : Z) (iov : list iovec) : Prop :=
  Forall (fun v => 0 <= iov_base v /\ 0 <= iov_len v /\
                   iov_base v + iov_len v <= n) iov.

(** What the caller of a memory transfer owes (docstrings, lines 138-148
    and 187-198): a pointer that is not [NULL] comes with room for the
    requested amount, which is not negative. *)
Definition caller_contract (o : operation) : Prop :=
  match o with
  | ReadInto (Some buffer) amount
  | WriteFrom (Some buffer) amount =>
      0 <= amount <= Z.of_nat (length buffer)
  | _ => True
  end.

(** * Properties *)

(** ** The bit smearing of [next_power_of_two] *)

Lemma smear_testbit k y i :
  0 <= k -> 0 <= i ->
  Z.testbit (smear k y) i = Z.testbit y i || Z.testbit y (i + k).
Proof.
  intros Hk Hi. unfold smear.
  rewrite Z.lor_spec, Z.shiftr_spec by lia. reflexivity.
Qed.

Lemma top_run_start x :
  0 < x -> top_run (Z.log2 x) 1 x.
Proof.
  intros Hx. split.
  - intros i Hi. apply Z.bits_above_log2; lia.
  - intros i _ Hi. replace i with (Z.log2 x) by lia.
    apply Z.bit_log2. lia.
Qed.

Lemma top_run_smear m n k y :
  0 <= m -> 0 < k <= n -> top_run m n y -> top_run m (n + k) (smear k y).
Proof.
  intros Hm Hk [Hhi Hlo]. split.
  - intros i Hi. rewrite smear_testbit by lia.
    rewrite (Hhi i), (Hhi (i + k)) by lia. reflexivity.
  - intros i Hi0 Hi. rewrite smear_testbit by lia.
    destruct (Z_lt_le_dec (m - n) i) as [Hin | Hout].
    + rewrite (Hlo i) by lia. reflexivity.
    + rewrite (Hlo (i + k)) by lia. apply orb_true_r.
Qed.

Lemma top_run_ones m n y :
  0 <= m < n -> top_run m n y -> y = Z.ones (m + 1).
Proof.
  intros Hm [Hhi Hlo]. apply Z.bits_inj'. intros i Hi.
  destruct (Z_lt_le_dec m i) as [Habove | Hbelow].
  - rewrite Hhi by lia. rewrite Z.ones_spec_high by lia. reflexivity.
  - rewrite Hlo by lia. rewrite Z.ones_spec_low by lia. reflexivity.
Qed.

(** The six smearing lines turn a positive 64-bit value into the all-ones
    value of the same bit length. *)
Lemma smear_all x :
  0 < x < 2 ^ 64 ->
  smear 32 (smear 16 (smear 8 (smear 4 (smear 2 (smear 1 x)))))
  = Z.ones (Z.log2 x + 1).
Proof.
  intros Hx.
  assert (Hm : 0 <= Z.log2 x < 64).
  { split; [apply Z.log2_nonneg |]. apply Z.log2_lt_pow2; lia. }
  apply (top_run_ones _ 64); [lia |].
  change 64 with (1 + 1 + 2 + 4 + 8 + 16 + 32).
  repeat (apply top_run_smear; [lia | lia |]).
  apply top_run_start. lia.
Qed.

Lemma next_power_of_two_unfold s :
  next_power_of_two s =
  u64 (smear 32 (smear 16 (smear 8 (smear 4 (smear 2 (smear 1 (u64 (s - 1))))))) + 1).
Proof. reflexivity. Qed.

Lemma next_power_of_two_one : next_power_of_two 1 = 1.
Proof. reflexivity. Qed.

(** For a request in [2 .. 2^64] the result is [2 ^ (log2 (s - 1) + 1)],
    reduced modulo [2^64]. *)
Lemma next_power_of_two_log2 s :
  2 <= s < 2 ^ 64 ->
  next_power_of_two s = u64 (2 ^ (Z.log2 (s - 1) + 1)).
Proof.
  intros Hs. rewrite next_power_of_two_unfold.
  assert (Hu : u64 (s - 1) = s - 1).
  { unfold u64. apply Z.mod_small. lia. }
  rewrite Hu, smear_all by lia.
  rewrite Z.ones_equiv. f_equal. lia.
Qed.

(** ** Arithmetic of offsets *)

Lemma mod_cases x n :
  0 < n -> - n <= x < 2 * n ->
  (x < 0 /\ x mod n = x + n) \/
  (0 <= x < n /\ x mod n = x) \/
  (n <= x /\ x mod n = x - n).
Proof.
  intros Hn Hx.
  destruct (Z_lt_le_dec x 0) as [Hneg | Hpos];
    [| destruct (Z_lt_le_dec x n) as [Hsmall | Hbig]].
  - left. split; [lia |].
    symmetry. apply (Z.mod_unique_pos _ _ (-1)); lia.
  - right. left. split; [lia |]. apply Z.mod_small. lia.
  - right. right. split; [lia |].
    symmetry. apply (Z.mod_unique_pos _ _ 1); lia.
Qed.

(** Replaces [x mod n] by its value, for [x] within one period of
    [[0, n)]. *)
Ltac mod_split_with x n tac :=
  let H := fresh "Hmod" in
  let E := fresh "Emod" in
  destruct (mod_cases x n) as [[H E] | [[H E] | [H E]]];
  [lia | lia | | | ]; try (exfalso; lia); rewrite ?E in *; tac E.

Ltac mod_split x n := mod_split_with x n ltac:(fun E => idtac).

(** Removes every such [mod] from the goal and the hypotheses. *)
Ltac mod_elim :=
  repeat match goal with
  | |- context [?x mod ?n] => mod_split_with x n ltac:(fun E => clear E)
  | H : context [?x mod ?n] |- _ =>
      mod_split_with x n ltac:(fun E => clear E)
  end.

Lemma to_long_small x : 0 <= x < 2 ^ 63 -> to_long x = x.
Proof.
  intros Hx. unfold to_long, u64.
  rewrite Z.mod_small by lia.
  destruct (Z.ltb_spec x (2 ^ 63)); lia.
Qed.

Lemma u64_small x : 0 <= x < 2 ^ 64 -> u64 x = x.
Proof. intros Hx. apply Z.mod_small. exact Hx. Qed.

Section Capacity.

Variable n : Z.
Hypothesis Hn : is_capacity n.

Lemma capacity_range : 0 < n < 2 ^ 63.
Proof. apply Hn. Qed.

Lemma capacity_log2 : 0 <= Z.log2 n < 63.
Proof.
  destruct Hn as [Hr _]. split; [apply Z.log2_nonneg |].
  apply Z.log2_lt_pow2; lia.
Qed.

Lemma capacity_divides : (n | 2 ^ 64).
Proof.
  pose proof capacity_log2 as Hk. destruct Hn as [_ Hp].
  exists (2 ^ (64 - Z.log2 n)).
  rewrite Hp at 2. rewrite <- Z.pow_add_r by lia.
  f_equal. lia.
Qed.

(** [x & (size - 1)] keeps [x] modulo the capacity, after the 64-bit
    wrap-around of [x] as well. *)
Lemma mask_mod x : Z.land (u64 x) (u64 (n - 1)) = x mod n.
Proof.
  pose proof capacity_range as Hr. pose proof capacity_log2 as Hk.
  rewrite (u64_small (n - 1)) by lia.
  replace (n - 1) with (Z.ones (Z.log2 n)).
  2: { rewrite Z.ones_equiv. destruct Hn as [_ Hp]. rewrite <- Hp. lia. }
  rewrite Z.land_ones by lia.
  destruct Hn as [_ Hp]. rewrite <- Hp. unfold u64.
  apply Z.mod_mod_divide, capacity_divides.
Qed.

Lemma mask_range x : 0 <= Z.land (u64 x) (u64 (n - 1)) < n.
Proof.
  rewrite mask_mod. apply Z.mod_pos_bound. apply capacity_range.
Qed.

End Capacity.

(** ** The counting functions on a well-formed buffer *)

Section Counting.

Variable rb : ringbuffer.
Hypothesis Hv : valid rb.

Lemma fill_level_range : 0 <= fill_level rb < size rb.
Proof.
  unfold fill_level. apply Z.mod_pos_bound.
  apply capacity_range, Hv.
Qed.

Lemma free_space_range : 0 < free_space rb <= size rb.
Proof. unfold free_space. pose proof fill_level_range. lia. Qed.

Lemma fill_count_valid errno :
  ringbuffer_fill_count (Some rb) errno = (fill_level rb, errno).
Proof.
  destruct Hv as [Hc Hr Hw _]. pose proof (capacity_range _ Hc) as Hs.
  unfold ringbuffer_fill_count, fill_level.
  destruct (Z.geb_spec (write_offset rb) (read_offset rb)) as [Hge | Hlt].
  - rewrite u64_small, to_long_small by lia.
    rewrite Z.mod_small by lia. reflexivity.
  - destruct (Z.ltb_spec (write_offset rb) (read_offset rb)); [| lia].
    rewrite (u64_small (_ + _)) by lia.
    rewrite u64_small, to_long_small by lia.
    mod_split (write_offset rb - read_offset rb) (size rb); try lia.
    f_equal. lia.
Qed.

Lemma free_count_valid errno :
  ringbuffer_free_count (Some rb) errno = (free_space rb, errno).
Proof.
  pose proof free_space_range as Hf.
  pose proof (capacity_range _ (valid_size _ Hv)) as Hs.
  unfold ringbuffer_free_count. rewrite fill_count_valid.
  fold (free_space rb).
  rewrite u64_small, to_long_small by lia. reflexivity.
Qed.

Lemma size_to_long : to_long (size rb) = size rb.
Proof.
  apply to_long_small.
  pose proof (capacity_range _ (valid_size _ Hv)). lia.
Qed.

End Counting.

(** ** [memcpy] and [memset], byte by byte *)

Lemma memcpy_length dst doff src soff n :
  0 <= doff -> 0 <= soff -> 0 <= n ->
  doff + n <= Z.of_nat (length dst) ->
  soff + n <= Z.of_nat (length src) ->
  length (memcpy dst doff src soff n) = length dst.
Proof.
  intros Hd Hs Hn Hdst Hsrc. unfold memcpy.
  rewrite !length_app, !length_take, !length_drop. lia.
Qed.

Lemma memcpy_byte_at dst doff src soff n i :
  0 <= doff -> 0 <= soff -> 0 <= n -> 0 <= i ->
  doff + n <= Z.of_nat (length dst) ->
  soff + n <= Z.of_nat (length src) ->
  byte_at (memcpy dst doff src soff n) i =
  if (doff <=? i) && (i <? doff + n) then byte_at src (soff + (i - doff))
  else byte_at dst i.
Proof.
  intros Hd Hs Hn Hi Hdst Hsrc. unfold memcpy, byte_at.
  destruct (Z.leb_spec doff i) as [Hle | Hlt]; simpl.
  - rewrite lookup_app_r by (rewrite length_take; lia).
    destruct (Z.ltb_spec i (doff + n)) as [Hin | Hout].
    + rewrite lookup_app_l
        by (rewrite !length_take, length_drop; lia).
      rewrite lookup_take_lt by (rewrite length_take; lia).
      rewrite lookup_drop. f_equal. rewrite length_take. lia.
    + rewrite lookup_app_r
        by (rewrite !length_take, length_drop; lia).
      rewrite lookup_drop. f_equal.
      rewrite !length_take, length_drop. lia.
  - rewrite lookup_app_l by (rewrite length_take; lia).
    apply lookup_take_lt. lia.
Qed.

Lemma memset_length dst doff c n :
  0 <= doff -> 0 <= n -> doff + n <= Z.of_nat (length dst) ->
  length (memset dst doff c n) = length dst.
Proof.
  intros Hd Hn Hdst. unfold memset.
  rewrite !length_app, length_take, length_replicate, length_drop. lia.
Qed.

(** Flushing a buffer with a sound capacity and storage area gives a
    well-formed, empty buffer whose storage holds the fill byte only. *)
Lemma flush_valid rb fill errno :
  is_capacity (size rb) -> Z.of_nat (length (storage rb)) = size rb ->
  exists rb',
    ringbuffer_flush (Some rb) fill errno = (0, Some rb', errno) /\
    valid rb' /\ empty rb' /\ size rb' = size rb /\
    storage rb' = replicate (Z.to_nat (size rb)) fill.
Proof.
  intros Hn Hst. pose proof (capacity_range _ Hn) as Hs.
  eexists. split; [reflexivity |].
  cbn [size read_offset write_offset storage
       set_storage set_read_offset set_write_offset].
  split; [| split; [reflexivity | split; [reflexivity |]]].
  - constructor; cbn; [exact Hn | lia | lia |].
    rewrite memset_length by lia. exact Hst.
  - unfold memset. rewrite take_0, drop_ge by lia.
    cbn [app]. apply app_nil_r.
Qed.

Lemma byte_at_ext (l1 l2 : list byte) :
  (forall i, 0 <= i -> byte_at l1 i = byte_at l2 i) -> l1 = l2.
Proof.
  intros H. apply list_eq. intros i.
  specialize (H (Z.of_nat i)). unfold byte_at in H.
  rewrite Nat2Z.id in H. apply H. lia.
Qed.

(** ** The memory transfers on a well-formed buffer *)

(** Splits every integer comparison of the goal. *)
Ltac split_tests :=
  repeat match goal with
  | |- context [Z.leb ?a ?b] => destruct (Z.leb_spec a b)
  | |- context [Z.ltb ?a ?b] => destruct (Z.ltb_spec a b)
  | |- context [Z.gtb ?a ?b] => destruct (Z.gtb_spec a b)
  | |- context [Z.geb ?a ?b] => destruct (Z.geb_spec a b)
  end; cbn [andb orb negb].

Section Transfers.

Variable rb : ringbuffer.
Hypothesis Hv : valid rb.

Let Hsize : 0 < size rb < 2 ^ 63 := capacity_range _ (valid_size _ Hv).

(** [ringbuffer_write_memory] returns the requested amount clamped to the
    fill level and moves the read offset by it, modulo the capacity. *)
Lemma write_memory_valid ptr amount errno :
  amount <= size rb ->
  let c := Z.min amount (fill_level rb) in
  let end_ := (read_offset rb + c) mod size rb in
  ringbuffer_write_memory (Some rb) ptr amount errno =
  mk_mem_result c (Some (set_read_offset end_ rb))
    (option_map (fun buffer => copy_out rb buffer end_) ptr) errno.
Proof.
  intros Ha c end_. subst c end_. unfold ringbuffer_write_memory.
  rewrite (size_to_long _ Hv).
  destruct (Z.gtb_spec amount (size rb)) as [Hgt | _]; [lia |].
  rewrite !(fill_count_valid _ Hv).
  destruct (Z.gtb_spec amount (fill_level rb)) as [Hclamp | Hfit].
  - rewrite Z.min_r by lia. unfold set_read_offset, copy_out.
    cbn [size read_offset write_offset storage].
    rewrite !(mask_mod _ (valid_size _ Hv)).
    destruct ptr as [buffer |]; cbn [option_map]; [| reflexivity].
    split_tests; reflexivity.
  - rewrite Z.min_l by lia. unfold set_read_offset, copy_out.
    cbn [size read_offset write_offset storage].
    rewrite !(mask_mod _ (valid_size _ Hv)).
    destruct ptr as [buffer |]; cbn [option_map]; [| reflexivity].
    split_tests; reflexivity.
Qed.

(** [ringbuffer_read_memory] returns the requested amount clamped to the
    free space and moves the write offset by it, modulo the capacity. *)
Lemma read_memory_valid ptr amount errno :
  amount <= size rb ->
  let c := Z.min amount (free_space rb) in
  let end_ := (write_offset rb + c) mod size rb in
  ringbuffer_read_memory (Some rb) ptr amount errno =
  mk_mem_result c
    (Some (set_write_offset end_
             (match ptr with
              | Some buffer => set_storage (copy_in rb buffer end_) rb
              | None => rb
              end)))
    ptr errno.
Proof.
  intros Ha c end_. subst c end_. unfold ringbuffer_read_memory.
  rewrite (size_to_long _ Hv).
  destruct (Z.gtb_spec amount (size rb)) as [Hgt | _]; [lia |].
  rewrite !(free_count_valid _ Hv).
  destruct (Z.gtb_spec amount (free_space rb)) as [Hclamp | Hfit].
  - rewrite Z.min_r by lia. rewrite (mask_mod _ (valid_size _ Hv)).
    destruct ptr as [buffer |]; unfold copy_in, set_write_offset, set_storage;
      cbn [size read_offset write_offset storage].
    + split_tests; rewrite ?(mask_mod _ (valid_size _ Hv)); reflexivity.
    + rewrite (mask_mod _ (valid_size _ Hv)). reflexivity.
  - rewrite Z.min_l by lia. rewrite (mask_mod _ (valid_size _ Hv)).
    destruct ptr as [buffer |]; unfold copy_in, set_write_offset, set_storage;
      cbn [size read_offset write_offset storage].
    + split_tests; rewrite ?(mask_mod _ (valid_size _ Hv)); reflexivity.
    + rewrite (mask_mod _ (valid_size _ Hv)). reflexivity.
Qed.

(** What [copy_out] leaves in the caller's buffer: the [c] bytes that
    follow the read offset, wrapping at the end of the storage. *)
Lemma copy_out_byte_at buffer c j :
  0 <= c < size rb -> c <= Z.of_nat (length buffer) -> 0 <= j ->
  byte_at (copy_out rb buffer ((read_offset rb + c) mod size rb)) j =
  if j <? c then byte_at (storage rb) ((read_offset rb + j) mod size rb)
  else byte_at buffer j.
Proof.
  intros Hc Hlen Hj. pose proof (valid_read _ Hv) as Hr.
  pose proof (valid_storage _ Hv) as Hst. unfold copy_out.
  mod_split (read_offset rb + c) (size rb).
  - destruct (Z.ltb_spec j c) as [Hin | Hout].
    + mod_split (read_offset rb + j) (size rb).
      split_tests; try lia.
      rewrite memcpy_byte_at by lia.
      split_tests; try lia. f_equal. lia.
    + split_tests; try lia; [| reflexivity].
      rewrite memcpy_byte_at by lia. split_tests; try lia. reflexivity.
  - assert (Hlen1 : length (memcpy buffer 0 (storage rb) (read_offset rb)
                              (size rb - read_offset rb)) = length buffer)
      by (apply memcpy_length; lia).
    destruct (Z.ltb_spec j c) as [Hin | Hout].
    + split_tests; try lia.
      rewrite memcpy_byte_at by lia.
      mod_split (read_offset rb + j) (size rb);
        split_tests; try lia.
      * rewrite memcpy_byte_at by lia. split_tests; try lia. f_equal. lia.
      * f_equal. lia.
    + split_tests; try lia.
      rewrite memcpy_byte_at by lia. split_tests; try lia.
      rewrite memcpy_byte_at by lia. split_tests; try lia. reflexivity.
Qed.

Lemma copy_out_length buffer c :
  0 <= c < size rb -> c <= Z.of_nat (length buffer) ->
  length (copy_out rb buffer ((read_offset rb + c) mod size rb))
  = length buffer.
Proof.
  intros Hc Hlen. pose proof (valid_read _ Hv) as Hr.
  pose proof (valid_storage _ Hv) as Hst. unfold copy_out.
  mod_split (read_offset rb + c) (size rb); split_tests; try lia;
    rewrite ?memcpy_length; try lia.
  rewrite memcpy_length; lia.
Qed.

(** What [copy_in] leaves in the storage area: the first [c] bytes of the
    caller's buffer behind the write offset, wrapping at the end, and the
    old contents everywhere else. *)
Lemma copy_in_byte_at buffer c i :
  0 <= c < size rb -> c <= Z.of_nat (length buffer) -> 0 <= i < size rb ->
  byte_at (copy_in rb buffer ((write_offset rb + c) mod size rb)) i =
  if (i - write_offset rb) mod size rb <? c
  then byte_at buffer ((i - write_offset rb) mod size rb)
  else byte_at (storage rb) i.
Proof.
  intros Hc Hlen Hi. pose proof (valid_write _ Hv) as Hw.
  pose proof (valid_storage _ Hv) as Hst. unfold copy_in.
  mod_split (i - write_offset rb) (size rb);
    mod_split (write_offset rb + c) (size rb);
    try assert (Hlen1 : length (memcpy (storage rb) (write_offset rb) buffer 0
                                  (size rb - write_offset rb))
                        = length (storage rb))
      by (apply memcpy_length; lia);
    split_tests; try lia;
    rewrite ?memcpy_byte_at by lia; split_tests; try lia;
    rewrite ?memcpy_byte_at by lia; split_tests; try lia;
    solve [reflexivity | f_equal; lia].
Qed.

Lemma copy_in_length buffer c :
  0 <= c < size rb -> c <= Z.of_nat (length buffer) ->
  length (copy_in rb buffer ((write_offset rb + c) mod size rb))
  = length (storage rb).
Proof.
  intros Hc Hlen. pose proof (valid_write _ Hv) as Hw.
  pose proof (valid_storage _ Hv) as Hst. unfold copy_in.
  mod_split (write_offset rb + c) (size rb); split_tests; try lia;
    rewrite ?memcpy_length; try lia.
  rewrite memcpy_length; lia.
Qed.

End Transfers.

(** ** Buffers after a transfer *)

Lemma byte_at_take_drop (src dst : list byte) n j :
  0 <= n -> 0 <= j ->
  n <= Z.of_nat (length src) ->
  byte_at (take (Z.to_nat n) src ++ drop (Z.to_nat n) dst) j =
  if j <? n then byte_at src j else byte_at dst j.
Proof.
  intros Hn Hj Hsrc. unfold byte_at.
  destruct (Z.ltb_spec j n) as [Hin | Hout].
  - rewrite lookup_app_l by (rewrite length_take; lia).
    apply lookup_take_lt. lia.
  - rewrite lookup_app_r by (rewrite length_take; lia).
    rewrite lookup_drop, length_take. f_equal. lia.
Qed.

Lemma fill_level_empty rb : valid rb -> empty rb -> fill_level rb = 0.
Proof.
  intros Hv He. unfold fill_level. rewrite He, Z.sub_diag.
  apply Z.mod_0_l. pose proof (capacity_range _ (valid_size _ Hv)). lia.
Qed.

(** The structure [ringbuffer_read_memory] leaves behind for a clamped
    amount [c] below the capacity is well formed again. *)
Lemma valid_after_copy_in rb buffer c :
  valid rb -> 0 <= c < size rb -> c <= Z.of_nat (length buffer) ->
  valid (set_write_offset ((write_offset rb + c) mod size rb)
           (set_storage (copy_in rb buffer ((write_offset rb + c) mod size rb)) rb)).
Proof.
  intros Hv Hc Hlen. pose proof (capacity_range _ (valid_size _ Hv)) as Hs.
  constructor; cbn [size read_offset write_offset storage set_write_offset set_storage].
  - apply Hv.
  - apply Hv.
  - apply Z.mod_pos_bound. lia.
  - rewrite (copy_in_length _ Hv) by lia. apply Hv.
Qed.

(** ** Claims *)

(** C1, the claim as stated fails when the whole capacity is written: on an
    empty buffer of capacity 4, writing 4 bytes returns 4 but stores
    nothing and leaves the write offset where it was, so reading 4 bytes
    returns 0 and the destination keeps its old contents. *)
Lemma round_trip_full_capacity_fails :
  let rb := mk_ringbuffer 4 0 0 [Byte.x00; Byte.x00; Byte.x00; Byte.x00] in
  let src := [Byte.x01; Byte.x02; Byte.x03; Byte.x04] in
  let dst := [Byte.x09; Byte.x09; Byte.x09; Byte.x09] in
  let w := ringbuffer_read_memory (Some rb) (Some src) 4 0 in
  let r := ringbuffer_write_memory (m_rb w) (Some dst) 4 (m_errno w) in
  empty rb /\ 4 <= size rb /\
  m_ret w = 4 /\ m_rb w = Some rb /\
  m_ret r = 0 /\ m_buf r = Some dst /\
  ~ (m_ret r = 4 /\ m_buf r = Some src).
Proof.
  vm_compute. repeat split; try reflexivity; try discriminate.
  intros [H _]. discriminate H.
Qed.

(** C1 (amended): on an empty well-formed buffer of capacity C, for every
    N < C, writing N bytes with [ringbuffer_read_memory] and then reading N
    bytes with [ringbuffer_write_memory] transfers N bytes both times and
    hands the N bytes written back in order, wherever the offsets stand
    (so also across the end of the storage). *)
Theorem round_trip_below_capacity rb src dst N errno :
  valid rb -> empty rb -> 0 <= N < size rb ->
  N <= Z.of_nat (length src) -> N <= Z.of_nat (length dst) ->
  let w := ringbuffer_read_memory (Some rb) (Some src) N errno in
  let r := ringbuffer_write_memory (m_rb w) (Some dst) N (m_errno w) in
  m_ret w = N /\ m_ret r = N /\
  m_buf r = Some (take (Z.to_nat N) src ++ drop (Z.to_nat N) dst).
Proof.
  intros Hv He HN Hsrc Hdst w r. subst r w.
  pose proof (capacity_range _ (valid_size _ Hv)) as Hs.
  pose proof (valid_read _ Hv) as Hr.
  rewrite (read_memory_valid _ Hv) by lia.
  unfold free_space. rewrite (fill_level_empty _ Hv He).
  rewrite Z.min_l by lia. cbn [m_ret m_rb m_errno].
  pose proof (valid_after_copy_in rb src N Hv HN Hsrc) as Hv1.
  set (rb1 := set_write_offset _ _) in *.
  assert (Hfill : fill_level rb1 = N).
  { unfold fill_level, rb1. cbn [size read_offset write_offset
                                   set_write_offset set_storage].
    rewrite <- He. clear Hv1. mod_elim; lia. }
  rewrite (write_memory_valid _ Hv1) by (cbn; lia).
  rewrite Hfill, Z.min_l by lia. cbn [m_ret m_buf option_map].
  split; [reflexivity |]. split; [reflexivity |]. f_equal.
  apply byte_at_ext. intros j Hj.
  rewrite (copy_out_byte_at _ Hv1) by (cbn; lia).
  rewrite byte_at_take_drop by lia.
  destruct (Z.ltb_spec j N) as [Hin | Hout]; [| reflexivity].
  unfold rb1 at 1. cbn [storage set_write_offset set_storage].
  replace (read_offset rb1) with (read_offset rb) by reflexivity.
  replace (size rb1) with (size rb) by reflexivity.
  assert (Hi : 0 <= (read_offset rb + j) mod size rb < size rb)
    by (apply Z.mod_pos_bound; lia).
  rewrite (copy_in_byte_at _ Hv) by lia. rewrite <- He.
  assert (Hback : ((read_offset rb + j) mod size rb - read_offset rb)
                    mod size rb = j).
  { clear Hi. mod_elim; lia. }
  rewrite Hback.
  destruct (Z.ltb_spec j N); [reflexivity | lia].
Qed.

Lemma round_trip_below_capacity_witness :
  let rb := mk_ringbuffer 4 3 3 [Byte.x00; Byte.x00; Byte.x00; Byte.x00] in
  let src := [Byte.x01; Byte.x02; Byte.x03] in
  let dst := [Byte.x09; Byte.x09; Byte.x09] in
  let w := ringbuffer_read_memory (Some rb) (Some src) 3 0 in
  let r := ringbuffer_write_memory (m_rb w) (Some dst) 3 (m_errno w) in
  m_ret w = 3 /\ m_ret r = 3 /\
  m_buf r = Some (take (Z.to_nat 3) src ++ drop (Z.to_nat 3) dst).
Proof.
  apply (round_trip_below_capacity
           (mk_ringbuffer 4 3 3 [Byte.x00; Byte.x00; Byte.x00; Byte.x00])
           [Byte.x01; Byte.x02; Byte.x03] [Byte.x09; Byte.x09; Byte.x09] 3 0).
  - constructor; cbn; [split; [lia | reflexivity] | lia | lia | reflexivity].
  - reflexivity.
  - cbn; lia.
  - cbn; lia.
  - cbn; lia.
Defined.

(** What the memory transfers never touch, on any buffer and for any
    arguments. *)
Lemma write_memory_frame rb ptr amount errno :
  exists rb',
    m_rb (ringbuffer_write_memory (Some rb) ptr amount errno) = Some rb' /\
    size rb' = size rb /\ write_offset rb' = write_offset rb /\
    storage rb' = storage rb /\
    (read_offset rb' = read_offset rb \/
     exists x, read_offset rb' = Z.land (u64 x) (u64 (size rb - 1))).
Proof.
  unfold ringbuffer_write_memory.
  destruct (amount >? to_long (size rb)).
  - exists rb. cbn. repeat split. left. reflexivity.
  - destruct (ringbuffer_fill_count (Some rb) errno) as [fill e1].
    destruct (if amount >? fill then _ else _) as [amount' e2].
    eexists. cbn. repeat split. right. eexists. reflexivity.
Qed.

Lemma read_memory_frame rb ptr amount errno :
  exists rb',
    m_rb (ringbuffer_read_memory (Some rb) ptr amount errno) = Some rb' /\
    size rb' = size rb /\ read_offset rb' = read_offset rb /\
    (write_offset rb' = write_offset rb \/
     exists x, write_offset rb' = Z.land (u64 x) (u64 (size rb - 1))).
Proof.
  unfold ringbuffer_read_memory.
  destruct (amount >? to_long (size rb)).
  - exists rb. cbn. repeat split. left. reflexivity.
  - destruct (ringbuffer_free_count (Some rb) errno) as [free e1].
    destruct (if amount >? free then _ else _) as [amount' e2].
    destruct ptr as [buffer |].
    + destruct (write_offset rb <? _); [| destruct (write_offset rb >? _)];
        (eexists; cbn; repeat split; right; eexists; reflexivity).
    + eexists. cbn. repeat split. right. eexists. reflexivity.
Qed.

(** C5: on a well-formed buffer, whatever its fill level, a request for
    more bytes than the capacity makes [ringbuffer_write_memory] and
    [ringbuffer_read_memory] return -1 with [errno] set to [ENOMEM], and
    leaves the buffer and the caller's memory as they were. *)
Theorem amount_above_capacity_rejected rb ptr amount errno :
  valid rb -> size rb < amount ->
  let r := ringbuffer_write_memory (Some rb) ptr amount errno in
  let w := ringbuffer_read_memory (Some rb) ptr amount errno in
  (m_ret r = -1 /\ m_errno r = ENOMEM /\ m_rb r = Some rb /\ m_buf r = ptr) /\
  (m_ret w = -1 /\ m_errno w = ENOMEM /\ m_rb w = Some rb /\ m_buf w = ptr).
Proof.
  intros Hv Ha r w. subst r w.
  unfold ringbuffer_write_memory, ringbuffer_read_memory.
  rewrite (size_to_long _ Hv).
  destruct (Z.gtb_spec amount (size rb)) as [_ | Hle]; [| lia].
  cbn. repeat split.
Qed.

Lemma amount_above_capacity_rejected_witness :
  let rb := mk_ringbuffer 2 1 0 [Byte.x07; Byte.x08] in
  let r := ringbuffer_write_memory (Some rb) None 3 0 in
  let w := ringbuffer_read_memory (Some rb) None 3 0 in
  (m_ret r = -1 /\ m_errno r = ENOMEM /\ m_rb r = Some rb /\ m_buf r = None) /\
  (m_ret w = -1 /\ m_errno w = ENOMEM /\ m_rb w = Some rb /\ m_buf w = None).
Proof.
  apply (amount_above_capacity_rejected
           (mk_ringbuffer 2 1 0 [Byte.x07; Byte.x08]) None 3 0).
  - constructor; cbn; [split; [lia | reflexivity] | lia | lia | reflexivity].
  - cbn; lia.
Defined.

(** C6: on a well-formed buffer whose free count is [k], a write request
    of more than [k] and at most capacity bytes makes
    [ringbuffer_read_memory] return [k], advance the write offset by [k],
    store the first [k] bytes of the source behind the old write offset
    (wrapping at the end of the storage) and leave every byte that was
    written but not yet read as it was. *)
Theorem write_beyond_free_space rb ptr amount errno k :
  valid rb ->
  fst (ringbuffer_free_count (Some rb) errno) = k ->
  k < amount <= size rb ->
  (forall buffer, ptr = Some buffer -> amount <= Z.of_nat (length buffer)) ->
  let w := ringbuffer_read_memory (Some rb) ptr amount errno in
  exists rb',
    m_rb w = Some rb' /\ m_ret w = k /\
    write_offset rb' = (write_offset rb + k) mod size rb /\
    (forall buffer j, ptr = Some buffer -> 0 <= j < k ->
       byte_at (storage rb') ((write_offset rb + j) mod size rb)
       = byte_at buffer j) /\
    (forall j, 0 <= j < fst (ringbuffer_fill_count (Some rb) errno) ->
       byte_at (storage rb') ((read_offset rb + j) mod size rb)
       = byte_at (storage rb) ((read_offset rb + j) mod size rb)).
Proof.
  intros Hv Hk Ha Hbuf w. subst w.
  pose proof (capacity_range _ (valid_size _ Hv)) as Hs.
  pose proof (valid_read _ Hv) as Hr. pose proof (valid_write _ Hv) as Hw.
  pose proof (free_space_range _ Hv) as Hfree.
  rewrite (free_count_valid _ Hv) in Hk. cbn [fst] in Hk.
  rewrite (fill_count_valid _ Hv). cbn [fst].
  rewrite (read_memory_valid _ Hv) by lia.
  rewrite Hk, Z.min_r by lia. cbn [m_rb m_ret].
  eexists. split; [reflexivity |]. split; [reflexivity |].
  split; [reflexivity |].
  assert (Hfill : fill_level rb = size rb - k) by (unfold free_space in Hk; lia).
  destruct ptr as [buffer |]; cbn [storage set_write_offset set_storage].
  - specialize (Hbuf buffer eq_refl). split.
    + intros buffer' j Heq Hj. injection Heq as <-.
      assert (Hi : 0 <= (write_offset rb + j) mod size rb < size rb)
        by (apply Z.mod_pos_bound; lia).
      rewrite (copy_in_byte_at _ Hv) by lia.
      assert (Hback : ((write_offset rb + j) mod size rb - write_offset rb)
                        mod size rb = j).
      { clear Hi. mod_elim; lia. }
      rewrite Hback. destruct (Z.ltb_spec j k); [reflexivity | lia].
    + intros j Hj.
      assert (Hi : 0 <= (read_offset rb + j) mod size rb < size rb)
        by (apply Z.mod_pos_bound; lia).
      rewrite (copy_in_byte_at _ Hv) by lia.
      assert (Hout : k <= ((read_offset rb + j) mod size rb - write_offset rb)
                          mod size rb).
      { clear Hi. unfold fill_level in *. mod_elim; lia. }
      destruct (Z.ltb_spec (((read_offset rb + j) mod size rb - write_offset rb)
                              mod size rb) k); [lia | reflexivity].
  - split; [intros buffer' j Heq; discriminate Heq | reflexivity].
Qed.

Lemma write_beyond_free_space_witness :
  let rb := mk_ringbuffer 4 1 3 [Byte.x00; Byte.x0a; Byte.x0b; Byte.x00] in
  let w := ringbuffer_read_memory (Some rb)
             (Some [Byte.x01; Byte.x02; Byte.x03]) 3 0 in
  exists rb',
    m_rb w = Some rb' /\ m_ret w = 2 /\
    write_offset rb' = (write_offset rb + 2) mod size rb /\
    (forall buffer j, Some [Byte.x01; Byte.x02; Byte.x03] = Some buffer ->
       0 <= j < 2 ->
       byte_at (storage rb') ((write_offset rb + j) mod size rb)
       = byte_at buffer j) /\
    (forall j, 0 <= j < fst (ringbuffer_fill_count (Some rb) 0) ->
       byte_at (storage rb') ((read_offset rb + j) mod size rb)
       = byte_at (storage rb) ((read_offset rb + j) mod size rb)).
Proof.
  apply (write_beyond_free_space
           (mk_ringbuffer 4 1 3 [Byte.x00; Byte.x0a; Byte.x0b; Byte.x00])
           (Some [Byte.x01; Byte.x02; Byte.x03]) 3 0 2).
  - constructor; cbn; [split; [lia | reflexivity] | lia | lia | reflexivity].
  - reflexivity.
  - cbn; lia.
  - intros buffer Heq. injection Heq as <-. cbn. lia.
Defined.

Lemma valid_set_read_offset rb v :
  valid rb -> 0 <= v < size rb -> valid (set_read_offset v rb).
Proof.
  intros Hv Hr. constructor; cbn; [apply Hv | exact Hr | apply Hv | apply Hv].
Qed.

(** C7: on a well-formed buffer, for a request of at most capacity bytes,
    [ringbuffer_write_memory] with a [NULL] destination returns the amount
    clamped to the fill count, writes to no destination, changes nothing
    but the read offset, which it advances by the clamped amount modulo the
    capacity, and the next [ringbuffer_fill_count] is lower by that
    amount. *)
Theorem null_destination_skips rb amount errno :
  valid rb -> amount <= size rb ->
  let fill := fst (ringbuffer_fill_count (Some rb) errno) in
  let c := Z.min amount fill in
  let r := ringbuffer_write_memory (Some rb) None amount errno in
  m_ret r = c /\ m_buf r = None /\
  m_rb r = Some (set_read_offset ((read_offset rb + c) mod size rb) rb) /\
  fst (ringbuffer_fill_count (m_rb r) (m_errno r)) = (fill - c) mod size rb /\
  (0 <= amount ->
   fst (ringbuffer_fill_count (m_rb r) (m_errno r)) = fill - c).
Proof.
  intros Hv Ha fill c r. subst fill c r.
  pose proof (capacity_range _ (valid_size _ Hv)) as Hs.
  pose proof (fill_level_range _ Hv) as Hf.
  rewrite (fill_count_valid _ Hv). cbn [fst].
  rewrite (write_memory_valid _ Hv) by lia. cbn [m_ret m_buf m_rb m_errno option_map].
  set (c := Z.min amount (fill_level rb)).
  assert (Hv1 : valid (set_read_offset ((read_offset rb + c) mod size rb) rb)).
  { apply valid_set_read_offset; [exact Hv |]. apply Z.mod_pos_bound. lia. }
  rewrite (fill_count_valid _ Hv1). cbn [fst].
  assert (Hnew : fill_level (set_read_offset ((read_offset rb + c) mod size rb) rb)
                 = (fill_level rb - c) mod size rb).
  { unfold fill_level. cbn [size read_offset write_offset set_read_offset].
    rewrite Zminus_mod_idemp_r, Zminus_mod_idemp_l. f_equal. lia. }
  repeat split; try reflexivity.
  - exact Hnew.
  - intros Hpos. rewrite Hnew. apply Z.mod_small. lia.
Qed.

Lemma null_destination_skips_witness :
  let rb := mk_ringbuffer 4 3 1 [Byte.x0a; Byte.x00; Byte.x00; Byte.x0b] in
  let fill := fst (ringbuffer_fill_count (Some rb) 0) in
  let c := Z.min 3 fill in
  let r := ringbuffer_write_memory (Some rb) None 3 0 in
  m_ret r = c /\ m_buf r = None /\
  m_rb r = Some (set_read_offset ((read_offset rb + c) mod size rb) rb) /\
  fst (ringbuffer_fill_count (m_rb r) (m_errno r)) = (fill - c) mod size rb /\
  (0 <= 3 ->
   fst (ringbuffer_fill_count (m_rb r) (m_errno r)) = fill - c).
Proof.
  apply (null_destination_skips
           (mk_ringbuffer 4 3 1 [Byte.x0a; Byte.x00; Byte.x00; Byte.x0b]) 3 0).
  - constructor; cbn; [split; [lia | reflexivity] | lia | lia | reflexivity].
  - cbn; lia.
Defined.

(** C10: on a well-formed buffer, for a request of at most capacity bytes,
    [ringbuffer_write_memory] leaves the write offset, the size field and
    the storage contents as they were, and [ringbuffer_read_memory] leaves
    the read offset and the size field as they were; neither touches
    [errno], and both succeed (return a count, not -1) when the request is
    not negative. *)
Theorem memory_transfer_frame rb ptr amount errno :
  valid rb -> amount <= size rb ->
  let r := ringbuffer_write_memory (Some rb) ptr amount errno in
  let w := ringbuffer_read_memory (Some rb) ptr amount errno in
  (exists rb', m_rb r = Some rb' /\
     write_offset rb' = write_offset rb /\ size rb' = size rb /\
     storage rb' = storage rb) /\
  (exists rb', m_rb w = Some rb' /\
     read_offset rb' = read_offset rb /\ size rb' = size rb) /\
  m_errno r = errno /\ m_errno w = errno /\
  (0 <= amount -> 0 <= m_ret r /\ 0 <= m_ret w).
Proof.
  intros Hv Ha r w. subst r w.
  pose proof (fill_level_range _ Hv) as Hf.
  pose proof (free_space_range _ Hv) as Hfree.
  destruct (write_memory_frame rb ptr amount errno)
    as (rb1 & Hrb1 & Hsz1 & Hw1 & Hst1 & _).
  destruct (read_memory_frame rb ptr amount errno)
    as (rb2 & Hrb2 & Hsz2 & Hr2 & _).
  split; [exists rb1; auto |]. split; [exists rb2; auto |].
  rewrite (write_memory_valid _ Hv), (read_memory_valid _ Hv) by lia.
  cbn [m_ret m_errno].
  split; [reflexivity |]. split; [reflexivity |]. lia.
Qed.

Lemma memory_transfer_frame_witness :
  let rb := mk_ringbuffer 4 3 1 [Byte.x0a; Byte.x00; Byte.x00; Byte.x0b] in
  let ptr := Some [Byte.x01; Byte.x02] in
  let r := ringbuffer_write_memory (Some rb) ptr 2 0 in
  let w := ringbuffer_read_memory (Some rb) ptr 2 0 in
  (exists rb', m_rb r = Some rb' /\
     write_offset rb' = write_offset rb /\ size rb' = size rb /\
     storage rb' = storage rb) /\
  (exists rb', m_rb w = Some rb' /\
     read_offset rb' = read_offset rb /\ size rb' = size rb) /\
  m_errno r = 0 /\ m_errno w = 0 /\
  (0 <= 2 -> 0 <= m_ret r /\ 0 <= m_ret w).
Proof.
  apply (memory_transfer_frame
           (mk_ringbuffer 4 3 1 [Byte.x0a; Byte.x00; Byte.x00; Byte.x0b])
           (Some [Byte.x01; Byte.x02]) 2 0).
  - constructor; cbn; [split; [lia | reflexivity] | lia | lia | reflexivity].
  - cbn; lia.
Defined.

(** ** Creation *)

(** On requests between 1 and [2^63] the rounding gives
    [2 ^ log2_up s]. *)
Lemma next_power_of_two_log2_up s :
  0 < s <= 2 ^ 63 -> next_power_of_two s = 2 ^ Z.log2_up s.
Proof.
  intros Hs. destruct (Z.eq_dec s 1) as [-> | Hne].
  - reflexivity.
  - rewrite next_power_of_two_log2 by lia.
    rewrite Z.log2_up_eqn by lia.
    rewrite <- Z.sub_1_r, <- Z.add_1_r.
    assert (Hk : 0 <= Z.log2 (s - 1) < 63).
    { split; [apply Z.log2_nonneg |]. apply Z.log2_lt_pow2; lia. }
    apply u64_small. split; [apply Z.pow_nonneg; lia |].
    apply Z.pow_lt_mono_r; lia.
Qed.

Lemma log2_up_least s :
  0 < s ->
  power_of_two (2 ^ Z.log2_up s) /\ s <= 2 ^ Z.log2_up s /\
  (forall p, power_of_two p -> s <= p -> 2 ^ Z.log2_up s <= p).
Proof.
  intros Hs. split; [| split].
  - exists (Z.log2_up s). split; [apply Z.log2_up_nonneg | reflexivity].
  - destruct (Z.eq_dec s 1) as [-> | Hne]; [cbn; lia |].
    apply Z.log2_up_spec. lia.
  - intros p (k & Hk & ->) Hle.
    destruct (Z.eq_dec s 1) as [-> | Hne].
    + cbn. pose proof (Z.pow_pos_nonneg 2 k). lia.
    + apply Z.pow_le_mono_r; [lia |].
      pose proof (Z.log2_up_spec s) as [Hlow _]; [lia |].
      assert (Hlt : 2 ^ Z.pred (Z.log2_up s) < 2 ^ k) by lia.
      apply Z.pow_lt_mono_r_iff in Hlt; lia.
Qed.

(** C8, the claim as stated fails on requests above [2^63]: the rounding
    wraps around to 0, and [ringbuffer_create] hands out a buffer whose
    size field is 0. *)
Lemma create_above_half_range_fails :
  let s := 2 ^ 63 + 1 in
  let block := mk_ringbuffer 0 0 0 [] in
  let alloc := fun n : Z => Some (replicate (Z.to_nat n) Byte.x00) in
  0 < s /\ is_ulong s /\
  ringbuffer_create (Some block) alloc s 0
  = (0, Some (mk_ringbuffer 0 0 0 []), 0) /\
  ~ (s <= 0) /\ ~ power_of_two 0.
Proof.
  repeat split; try (vm_compute; congruence).
  intros (k & Hk & H0). pose proof (Z.pow_pos_nonneg 2 k). lia.
Qed.

(** C8 (amended): for every requested size between 1 and [2^63], a
    [ringbuffer_create] whose allocations succeed returns 0 and yields a
    buffer whose size field is a power of two, is at least the requested
    size and is the smallest such power of two. *)
Theorem create_rounds_up block alloc st s errno :
  0 < s <= 2 ^ 63 ->
  alloc (next_power_of_two s) = Some st ->
  exists rb,
    ringbuffer_create (Some block) alloc s errno = (0, Some rb, errno) /\
    storage rb = st /\
    size rb = 2 ^ Z.log2_up s /\
    power_of_two (size rb) /\ s <= size rb /\
    (forall p, power_of_two p -> s <= p -> size rb <= p).
Proof.
  intros Hs Halloc. unfold ringbuffer_create. rewrite Halloc.
  eexists. split; [reflexivity |]. cbn [size storage set_storage set_size].
  split; [reflexivity |].
  rewrite next_power_of_two_log2_up by exact Hs.
  split; [reflexivity |]. apply log2_up_least. lia.
Qed.

Lemma create_rounds_up_witness :
  exists rb,
    ringbuffer_create (Some (mk_ringbuffer 0 0 0 []))
      (fun n : Z => Some (replicate (Z.to_nat n) Byte.x00)) 10 0
    = (0, Some rb, 0) /\
    storage rb = replicate 16 Byte.x00 /\
    size rb = 2 ^ Z.log2_up 10 /\
    power_of_two (size rb) /\ 10 <= size rb /\
    (forall p, power_of_two p -> 10 <= p -> size rb <= p).
Proof.
  apply (create_rounds_up (mk_ringbuffer 0 0 0 [])
           (fun n : Z => Some (replicate (Z.to_nat n) Byte.x00))
           (replicate 16 Byte.x00) 10 0).
  - lia.
  - reflexivity.
Defined.

(** ** The capacity-one scenario *)

(** C2, the claim as stated fails: after [ringbuffer_create] with size 1,
    a flush and a write of one byte, the write offset is back at 0, so
    [ringbuffer_free_count] returns 1, not 0, and a further write of one
    byte returns 1, not 0. *)
Lemma capacity_one_scenario_fails :
  let block := mk_ringbuffer 0 0 0 [] in
  let alloc := fun n : Z => Some (replicate (Z.to_nat n) Byte.x00) in
  let '(_, h0, e0) := ringbuffer_create (Some block) alloc 1 0 in
  let '(_, h1, e1) := ringbuffer_flush h0 Byte.x00 e0 in
  let w1 := ringbuffer_read_memory h1 (Some [Byte.x2a]) 1 e1 in
  let free := fst (ringbuffer_free_count (m_rb w1) (m_errno w1)) in
  let w2 := ringbuffer_read_memory (m_rb w1) (Some [Byte.x2b]) 1 (m_errno w1) in
  option_map size h0 = Some 1 /\ m_ret w1 = 1 /\
  free = 1 /\ m_ret w2 = 1 /\
  ~ (free = 0 /\ m_ret w2 = 0).
Proof.
  vm_compute. repeat split; try reflexivity.
  intros [H _]. discriminate H.
Qed.

(** C2 (amended): [ringbuffer_create] with size 1 yields a buffer of
    capacity 1; after a flush and a write of one byte, which returns 1,
    [ringbuffer_free_count] returns 1 and [ringbuffer_fill_count] returns
    0, and a further write of one byte returns 1. *)
Theorem capacity_one_scenario block alloc st c b1 b2 errno :
  alloc (next_power_of_two 1) = Some st ->
  let '(ret0, h0, e0) := ringbuffer_create (Some block) alloc 1 errno in
  let '(ret1, h1, e1) := ringbuffer_flush h0 c e0 in
  let w1 := ringbuffer_read_memory h1 (Some [b1]) 1 e1 in
  let free := fst (ringbuffer_free_count (m_rb w1) (m_errno w1)) in
  let fill := fst (ringbuffer_fill_count (m_rb w1) (m_errno w1)) in
  let w2 := ringbuffer_read_memory (m_rb w1) (Some [b2]) 1 (m_errno w1) in
  ret0 = 0 /\ option_map size h0 = Some 1 /\ ret1 = 0 /\
  m_ret w1 = 1 /\ free = 1 /\ fill = 0 /\ m_ret w2 = 1.
Proof.
  intros Halloc. unfold ringbuffer_create. rewrite Halloc.
  cbn. repeat split.
Qed.

Lemma capacity_one_scenario_witness :
  let '(ret0, h0, e0) :=
    ringbuffer_create (Some (mk_ringbuffer 7 5 3 []))
      (fun n : Z => Some (replicate (Z.to_nat n) Byte.xff)) 1 0 in
  let '(ret1, h1, e1) := ringbuffer_flush h0 Byte.x00 e0 in
  let w1 := ringbuffer_read_memory h1 (Some [Byte.x2a]) 1 e1 in
  let free := fst (ringbuffer_free_count (m_rb w1) (m_errno w1)) in
  let fill := fst (ringbuffer_fill_count (m_rb w1) (m_errno w1)) in
  let w2 := ringbuffer_read_memory (m_rb w1) (Some [Byte.x2b]) 1 (m_errno w1) in
  ret0 = 0 /\ option_map size h0 = Some 1 /\ ret1 = 0 /\
  m_ret w1 = 1 /\ free = 1 /\ fill = 0 /\ m_ret w2 = 1.
Proof.
  apply (capacity_one_scenario (mk_ringbuffer 7 5 3 [])
           (fun n : Z => Some (replicate (Z.to_nat n) Byte.xff))
           [Byte.xff] Byte.x00 Byte.x2a Byte.x2b 0).
  reflexivity.
Defined.

(** ** Descriptor transfers on a well-formed buffer *)

Lemma span_iov_total off c n :
  0 < n -> 0 <= off < n -> iov_total (span_iov off c n) = c mod n.
Proof.
  intros Hn Hoff. unfold span_iov.
  assert (Hend : 0 <= (off + c) mod n < n) by (apply Z.mod_pos_bound; lia).
  assert (Hc : c mod n = ((off + c) mod n - off) mod n).
  { rewrite Zminus_mod_idemp_l. f_equal. lia. }
  rewrite Hc. set (e := (off + c) mod n) in *.
  split_tests; cbn; clear Hc; mod_elim; lia.
Qed.

Section Descriptors.

Variable sys : syscall.
Variable rb : ringbuffer.
Hypothesis Hv : valid rb.

(** [ringbuffer_write_fd] offers the operating system the requested
    amount clamped to the free count, starting at the read offset. *)
Lemma write_fd_valid fd amount errno :
  amount <= size rb ->
  let c := Z.min amount (free_space rb) in
  let r := sys fd (span_iov (read_offset rb) c (size rb)) errno in
  let bytes := u64 (sys_ret r) in
  ringbuffer_write_fd sys (Some rb) fd amount errno =
  if bytes <=? 0 then
    if would_block (sys_errno r) then
      mk_fd_result (to_long bytes) (Some rb) (sys_errno r)
    else mk_fd_result (-1) (Some rb) (sys_errno r)
  else
    mk_fd_result (to_long bytes)
      (Some (set_read_offset ((read_offset rb + bytes) mod size rb) rb))
      (sys_errno r).
Proof.
  intros Ha c r bytes. subst c r bytes. unfold ringbuffer_write_fd.
  rewrite (size_to_long _ Hv).
  destruct (Z.gtb_spec amount (size rb)) as [Hgt | _]; [lia |].
  rewrite !(free_count_valid _ Hv).
  assert (Hc : (if amount >? free_space rb then (free_space rb, errno)
                else (amount, errno))
               = (Z.min amount (free_space rb), errno)).
  { destruct (Z.gtb_spec amount (free_space rb));
      [rewrite Z.min_r by lia | rewrite Z.min_l by lia]; reflexivity. }
  rewrite Hc. clear Hc. set (c := Z.min amount (free_space rb)).
  rewrite (mask_mod _ (valid_size _ Hv)). fold (span_iov (read_offset rb) c (size rb)).
  set (r := sys fd _ errno).
  unfold set_read_offset. cbn [size read_offset write_offset storage].
  rewrite (mask_mod _ (valid_size _ Hv)). unfold would_block.
  destruct (u64 (sys_ret r) <=? 0); [| reflexivity].
  destruct (sys_errno r =? EAGAIN), (sys_errno r =? EWOULDBLOCK); reflexivity.
Qed.

(** [ringbuffer_read_fd] offers the operating system the requested
    amount clamped to the fill count, starting at the write offset. *)
Lemma read_fd_valid fd amount errno :
  amount <= size rb ->
  let c := Z.min amount (fill_level rb) in
  let iov := span_iov (write_offset rb) c (size rb) in
  let r := sys fd iov errno in
  let bytes := u64 (sys_ret r) in
  let rb1 := set_storage (scatter (storage rb) iov (sys_data r)) rb in
  ringbuffer_read_fd sys (Some rb) fd amount errno =
  if bytes <=? 0 then
    if would_block (sys_errno r) then
      mk_fd_result (to_long bytes) (Some rb1) (sys_errno r)
    else mk_fd_result (-1) (Some rb1) (sys_errno r)
  else
    mk_fd_result (to_long bytes)
      (Some (set_write_offset ((write_offset rb + bytes) mod size rb) rb1))
      (sys_errno r).
Proof.
  intros Ha c iov r bytes rb1. subst c iov r bytes rb1.
  unfold ringbuffer_read_fd.
  rewrite (size_to_long _ Hv).
  destruct (Z.gtb_spec amount (size rb)) as [Hgt | _]; [lia |].
  rewrite !(fill_count_valid _ Hv).
  assert (Hc : (if amount >? fill_level rb then (fill_level rb, errno)
                else (amount, errno))
               = (Z.min amount (fill_level rb), errno)).
  { destruct (Z.gtb_spec amount (fill_level rb));
      [rewrite Z.min_r by lia | rewrite Z.min_l by lia]; reflexivity. }
  rewrite Hc. clear Hc. set (c := Z.min amount (fill_level rb)).
  rewrite (mask_mod _ (valid_size _ Hv)). fold (span_iov (write_offset rb) c (size rb)).
  set (r := sys fd _ errno).
  unfold set_write_offset, set_storage. cbn [size read_offset write_offset storage].
  rewrite (mask_mod _ (valid_size _ Hv)). unfold would_block.
  destruct (u64 (sys_ret r) <=? 0); [| reflexivity].
  destruct (sys_errno r =? EAGAIN), (sys_errno r =? EWOULDBLOCK); reflexivity.
Qed.

End Descriptors.

Lemma span_iov_in_bounds off c n :
  0 < n -> 0 <= off < n -> iov_in_bounds n (span_iov off c n).
Proof.
  intros Hn Hoff. unfold span_iov, iov_in_bounds.
  assert (Hend : 0 <= (off + c) mod n < n) by (apply Z.mod_pos_bound; lia).
  split_tests; repeat constructor; cbn; lia.
Qed.

(** The segments for a clamped amount [c], case by case: a negative [c]
    covers [c mod n] bytes, a [c] equal to the whole storage no byte, any
    other [c] exactly [c] bytes. *)
Lemma span_iov_total_exact off c n :
  0 < n -> 0 <= off < n -> c <= n ->
  iov_total (span_iov off c n) =
  if c <? 0 then c mod n else if c =? n then 0 else c.
Proof.
  intros Hn Hoff Hc. rewrite span_iov_total by lia.
  destruct (Z.ltb_spec c 0); [reflexivity |].
  destruct (Z.eqb_spec c n) as [-> | Hne]; [apply Z_mod_same_full |].
  apply Z.mod_small. lia.
Qed.

Lemma span_iov_whole off n :
  0 < n -> 0 <= off < n -> span_iov off n n = [].
Proof.
  intros Hn Hoff. unfold span_iov.
  replace ((off + n) mod n) with off by (mod_split (off + n) n; lia).
  rewrite Z.ltb_irrefl.
  destruct (Z.gtb_spec off off); [lia | reflexivity].
Qed.

Lemma span_iov_head off c n :
  0 < n -> 0 <= off < n -> 0 < c < n ->
  option_map iov_base (head (span_iov off c n)) = Some off.
Proof.
  intros Hn Hoff Hc. unfold span_iov.
  mod_split (off + c) n; split_tests; try lia; reflexivity.
Qed.

(** C3: on a well-formed buffer, for every request of at most capacity
    bytes and every behaviour of the operating system,
    [ringbuffer_write_fd] clamps the request to the free count and
    [ringbuffer_read_fd] clamps it to the fill count: the one system call
    is made on the segments of the clamped amount, from the read offset
    (resp. the write offset) on, and the whole result of the function
    (return value, buffer, [errno]) is the one that call's answer gives.
    The segments lie inside the storage and cover exactly the clamped
    amount (none when it is the whole capacity, the amount modulo the
    capacity when it is negative), and a descriptor that takes all it is
    offered transfers the clamped amount. *)
Theorem descriptor_transfers_clamped (sys : syscall) rb fd amount errno :
  valid rb -> amount <= size rb ->
  let free := fst (ringbuffer_free_count (Some rb) errno) in
  let fill := fst (ringbuffer_fill_count (Some rb) errno) in
  let cw := Z.min amount free in
  let cr := Z.min amount fill in
  let out := span_iov (read_offset rb) cw (size rb) in
  let inn := span_iov (write_offset rb) cr (size rb) in
  let kw := sys fd out errno in
  let kr := sys fd inn errno in
  let rb1 := set_storage (scatter (storage rb) inn (sys_data kr)) rb in
  (ringbuffer_write_fd sys (Some rb) fd amount errno =
   (if u64 (sys_ret kw) <=? 0 then
      if would_block (sys_errno kw) then
        mk_fd_result (to_long (u64 (sys_ret kw))) (Some rb) (sys_errno kw)
      else mk_fd_result (-1) (Some rb) (sys_errno kw)
    else
      mk_fd_result (to_long (u64 (sys_ret kw)))
        (Some (set_read_offset
                 ((read_offset rb + u64 (sys_ret kw)) mod size rb) rb))
        (sys_errno kw)) /\
   iov_in_bounds (size rb) out /\
   iov_total out =
     (if cw <? 0 then cw mod size rb
      else if cw =? size rb then 0 else cw) /\
   (cw = size rb -> out = []) /\
   (0 < cw < size rb ->
    option_map iov_base (head out) = Some (read_offset rb)) /\
   (0 < amount -> cw < size rb ->
    f_ret (ringbuffer_write_fd transfer_all (Some rb) fd amount errno)
    = cw)) /\
  (ringbuffer_read_fd sys (Some rb) fd amount errno =
   (if u64 (sys_ret kr) <=? 0 then
      if would_block (sys_errno kr) then
        mk_fd_result (to_long (u64 (sys_ret kr))) (Some rb1) (sys_errno kr)
      else mk_fd_result (-1) (Some rb1) (sys_errno kr)
    else
      mk_fd_result (to_long (u64 (sys_ret kr)))
        (Some (set_write_offset
                 ((write_offset rb + u64 (sys_ret kr)) mod size rb) rb1))
        (sys_errno kr)) /\
   iov_in_bounds (size rb) inn /\
   iov_total inn = (if cr <? 0 then cr mod size rb else cr) /\
   (0 < cr ->
    option_map iov_base (head inn) = Some (write_offset rb)) /\
   (0 < cr ->
    f_ret (ringbuffer_read_fd transfer_all (Some rb) fd amount errno)
    = cr)).
Proof.
  intros Hv Ha free fill cw cr out inn kw kr rb1.
  subst free fill cw cr out inn kw kr rb1.
  pose proof (capacity_range _ (valid_size _ Hv)) as Hs.
  pose proof (fill_level_range _ Hv) as Hfill.
  pose proof (free_space_range _ Hv) as Hfree.
  pose proof (valid_read _ Hv) as Hr. pose proof (valid_write _ Hv) as Hw.
  rewrite (free_count_valid _ Hv), (fill_count_valid _ Hv). cbn [fst].
  split.
  - split; [apply (write_fd_valid _ _ Hv); lia |].
    split; [apply span_iov_in_bounds; lia |].
    split; [apply span_iov_total_exact; lia |].
    split; [intros ->; apply span_iov_whole; lia |].
    split; [intros Hc; apply span_iov_head; lia |].
    intros Hpos Hlt. rewrite (write_fd_valid _ _ Hv) by lia.
    unfold transfer_all. cbn [sys_ret sys_errno].
    rewrite span_iov_total by lia.
    rewrite (Z.mod_small (Z.min _ _)) by lia.
    rewrite u64_small by lia.
    destruct (Z.leb_spec (Z.min amount (free_space rb)) 0); [lia |].
    cbn [f_ret]. apply to_long_small. lia.
  - split; [apply (read_fd_valid _ _ Hv); lia |].
    split; [apply span_iov_in_bounds; lia |].
    split.
    { rewrite span_iov_total_exact by lia.
      destruct (Z.ltb_spec (Z.min amount (fill_level rb)) 0); [reflexivity |].
      destruct (Z.eqb_spec (Z.min amount (fill_level rb)) (size rb));
        [lia | reflexivity]. }
    split; [intros Hc; apply span_iov_head; lia |].
    intros Hpos. rewrite (read_fd_valid _ _ Hv) by lia.
    unfold transfer_all. cbn [sys_ret sys_errno].
    rewrite span_iov_total by lia.
    rewrite (Z.mod_small (Z.min _ _)) by lia.
    rewrite u64_small by lia.
    destruct (Z.leb_spec (Z.min amount (fill_level rb)) 0); [lia |].
    cbn [f_ret]. apply to_long_small. lia.
Qed.

Lemma descriptor_transfers_clamped_witness :
  let sys : syscall := fun _ _ errno => mk_sysret 1 errno [Byte.x55] in
  let rb := mk_ringbuffer 4 1 2 [Byte.x00; Byte.x0a; Byte.x00; Byte.x00] in
  let free := fst (ringbuffer_free_count (Some rb) 0) in
  let fill := fst (ringbuffer_fill_count (Some rb) 0) in
  let cw := Z.min 4 free in
  let cr := Z.min 4 fill in
  let out := span_iov (read_offset rb) cw (size rb) in
  let inn := span_iov (write_offset rb) cr (size rb) in
  let kw := sys 5 out 0 in
  let kr := sys 5 inn 0 in
  let rb1 := set_storage (scatter (storage rb) inn (sys_data kr)) rb in
  (ringbuffer_write_fd sys (Some rb) 5 4 0 =
   (if u64 (sys_ret kw) <=? 0 then
      if would_block (sys_errno kw) then
        mk_fd_result (to_long (u64 (sys_ret kw))) (Some rb) (sys_errno kw)
      else mk_fd_result (-1) (Some rb) (sys_errno kw)
    else
      mk_fd_result (to_long (u64 (sys_ret kw)))
        (Some (set_read_offset
                 ((read_offset rb + u64 (sys_ret kw)) mod size rb) rb))
        (sys_errno kw)) /\
   iov_in_bounds (size rb) out /\
   iov_total out =
     (if cw <? 0 then cw mod size rb
      else if cw =? size rb then 0 else cw) /\
   (cw = size rb -> out = []) /\
   (0 < cw < size rb ->
    option_map iov_base (head out) = Some (read_offset rb)) /\
   (0 < 4 -> cw < size rb ->
    f_ret (ringbuffer_write_fd transfer_all (Some rb) 5 4 0)
    = cw)) /\
  (ringbuffer_read_fd sys (Some rb) 5 4 0 =
   (if u64 (sys_ret kr) <=? 0 then
      if would_block (sys_errno kr) then
        mk_fd_result (to_long (u64 (sys_ret kr))) (Some rb1) (sys_errno kr)
      else mk_fd_result (-1) (Some rb1) (sys_errno kr)
    else
      mk_fd_result (to_long (u64 (sys_ret kr)))
        (Some (set_write_offset
                 ((write_offset rb + u64 (sys_ret kr)) mod size rb) rb1))
        (sys_errno kr)) /\
   iov_in_bounds (size rb) inn /\
   iov_total inn = (if cr <? 0 then cr mod size rb else cr) /\
   (0 < cr ->
    option_map iov_base (head inn) = Some (write_offset rb)) /\
   (0 < cr ->
    f_ret (ringbuffer_read_fd transfer_all (Some rb) 5 4 0)
    = cr)).
Proof.
  apply (descriptor_transfers_clamped
           (fun _ _ errno => mk_sysret 1 errno [Byte.x55])
           (mk_ringbuffer 4 1 2 [Byte.x00; Byte.x0a; Byte.x00; Byte.x00])
           5 4 0).
  - constructor; cbn; [split; [lia | reflexivity] | lia | lia | reflexivity].
  - cbn; lia.
Defined.

(** The [ssize_t] results -1 and 0 once stored in the [unsigned long]
    variable [bytes]: -1 becomes [ULONG_MAX], which is not [<= 0]. *)
Lemma failed_call_test : (u64 (-1) <=? 0) = false.
Proof. reflexivity. Qed.

Lemma failed_call_long : to_long (u64 (-1)) = -1.
Proof. reflexivity. Qed.

Lemma empty_call_test : (u64 0 <=? 0) = true.
Proof. reflexivity. Qed.

Lemma empty_call_long : to_long (u64 0) = 0.
Proof. reflexivity. Qed.

(** C4, the claim as stated fails: when [writev] fails with [EAGAIN] on a
    flushed buffer of capacity 4, [ringbuffer_write_fd] returns -1, not 0,
    and moves the read offset from 0 to 3; [ringbuffer_read_fd] does the
    same to the write offset when [readv] fails with [EAGAIN]. *)
Lemma would_block_failure_fails :
  let sys : syscall := fun _ _ _ => mk_sysret (-1) EAGAIN [] in
  let rb := mk_ringbuffer 4 0 0 [Byte.x00; Byte.x00; Byte.x00; Byte.x00] in
  let d := ringbuffer_write_fd sys (Some rb) 5 2 0 in
  let f := ringbuffer_read_fd sys (Some (set_write_offset 2 rb)) 5 2 0 in
  f_ret d = -1 /\ f_errno d = EAGAIN /\
  f_rb d = Some (set_read_offset 3 rb) /\
  f_ret f = -1 /\ f_errno f = EAGAIN /\
  f_rb f = Some (set_write_offset 1 rb) /\
  ~ (f_ret d = 0 /\ f_rb d = Some rb) /\
  ~ (f_ret f = 0 /\ f_rb f = Some (set_write_offset 2 rb)).
Proof.
  vm_compute. repeat split; try reflexivity; intros [H _]; discriminate H.
Qed.

(** C4 (amended): on a well-formed buffer, for a request of at most
    capacity bytes: when the vectored call fails, that is returns -1,
    [ringbuffer_write_fd] and [ringbuffer_read_fd] return -1 and leave
    [errno] as the call set it, for a would-block condition as for any
    other; when the call returns 0 they return 0 if [errno] is [EAGAIN] or
    [EWOULDBLOCK] and -1 otherwise, and both offsets stay as they were. *)
Theorem vectored_call_failure (writev readv : syscall) rb fd amount errno :
  valid rb -> amount <= size rb ->
  let free := fst (ringbuffer_free_count (Some rb) errno) in
  let fill := fst (ringbuffer_fill_count (Some rb) errno) in
  let kw := writev fd (span_iov (read_offset rb) (Z.min amount free) (size rb))
              errno in
  let kr := readv fd (span_iov (write_offset rb) (Z.min amount fill) (size rb))
              errno in
  let d := ringbuffer_write_fd writev (Some rb) fd amount errno in
  let f := ringbuffer_read_fd readv (Some rb) fd amount errno in
  (sys_ret kw = -1 -> f_ret d = -1 /\ f_errno d = sys_errno kw) /\
  (sys_ret kw = 0 ->
   f_ret d = (if would_block (sys_errno kw) then 0 else -1) /\
   f_errno d = sys_errno kw /\ f_rb d = Some rb) /\
  (sys_ret kr = -1 -> f_ret f = -1 /\ f_errno f = sys_errno kr) /\
  (sys_ret kr = 0 ->
   f_ret f = (if would_block (sys_errno kr) then 0 else -1) /\
   f_errno f = sys_errno kr /\
   exists rb', f_rb f = Some rb' /\ size rb' = size rb /\
     read_offset rb' = read_offset rb /\ write_offset rb' = write_offset rb).
Proof.
  intros Hv Ha free fill kw kr d f. subst free fill kw kr d f.
  rewrite (free_count_valid _ Hv), (fill_count_valid _ Hv). cbn [fst].
  rewrite (write_fd_valid _ _ Hv), (read_fd_valid _ _ Hv) by lia.
  split; [| split; [| split]]; intros Hk; rewrite Hk.
  - rewrite failed_call_test, failed_call_long. split; reflexivity.
  - rewrite empty_call_test, empty_call_long.
    destruct (would_block _); repeat split.
  - rewrite failed_call_test, failed_call_long. split; reflexivity.
  - rewrite empty_call_test, empty_call_long.
    destruct (would_block _); repeat split; eexists; repeat split.
Qed.

Lemma vectored_call_failure_witness :
  let writev : syscall := fun _ _ _ => mk_sysret 0 EAGAIN [] in
  let readv : syscall := fun _ _ _ => mk_sysret (-1) 5 [] in
  let rb := mk_ringbuffer 4 1 2 [Byte.x00; Byte.x0a; Byte.x00; Byte.x00] in
  let free := fst (ringbuffer_free_count (Some rb) 0) in
  let fill := fst (ringbuffer_fill_count (Some rb) 0) in
  let kw := writev 5 (span_iov (read_offset rb) (Z.min 1 free) (size rb)) 0 in
  let kr := readv 5 (span_iov (write_offset rb) (Z.min 1 fill) (size rb)) 0 in
  let d := ringbuffer_write_fd writev (Some rb) 5 1 0 in
  let f := ringbuffer_read_fd readv (Some rb) 5 1 0 in
  (sys_ret kw = -1 -> f_ret d = -1 /\ f_errno d = sys_errno kw) /\
  (sys_ret kw = 0 ->
   f_ret d = (if would_block (sys_errno kw) then 0 else -1) /\
   f_errno d = sys_errno kw /\ f_rb d = Some rb) /\
  (sys_ret kr = -1 -> f_ret f = -1 /\ f_errno f = sys_errno kr) /\
  (sys_ret kr = 0 ->
   f_ret f = (if would_block (sys_errno kr) then 0 else -1) /\
   f_errno f = sys_errno kr /\
   exists rb', f_rb f = Some rb' /\ size rb' = size rb /\
     read_offset rb' = read_offset rb /\ write_offset rb' = write_offset rb).
Proof.
  apply (vectored_call_failure
           (fun _ _ _ => mk_sysret 0 EAGAIN [])
           (fun _ _ _ => mk_sysret (-1) 5 [])
           (mk_ringbuffer 4 1 2 [Byte.x00; Byte.x0a; Byte.x00; Byte.x00])
           5 1 0).
  - constructor; cbn; [split; [lia | reflexivity] | lia | lia | reflexivity].
  - cbn; lia.
Defined.

(** ** The offsets under every operation *)

(** What the descriptor transfers never touch, on any buffer and for any
    arguments and system call. *)
Lemma write_fd_frame sys rb fd amount errno :
  exists rb',
    f_rb (ringbuffer_write_fd sys (Some rb) fd amount errno) = Some rb' /\
    size rb' = size rb /\ write_offset rb' = write_offset rb /\
    storage rb' = storage rb /\
    (read_offset rb' = read_offset rb \/
     exists x, read_offset rb' = Z.land (u64 x) (u64 (size rb - 1))).
Proof.
  unfold ringbuffer_write_fd.
  destruct (amount >? to_long (size rb)).
  - exists rb. cbn. repeat split. left. reflexivity.
  - destruct (ringbuffer_free_count (Some rb) errno) as [free e1].
    destruct (if amount >? free then _ else _) as [amount' e2].
    destruct (u64 _ <=? 0).
    + destruct (negb _ && negb _);
        (exists rb; cbn; repeat split; left; reflexivity).
    + eexists. cbn. repeat split. right. eexists. reflexivity.
Qed.

Lemma read_fd_frame sys rb fd amount errno :
  exists rb',
    f_rb (ringbuffer_read_fd sys (Some rb) fd amount errno) = Some rb' /\
    size rb' = size rb /\ read_offset rb' = read_offset rb /\
    (write_offset rb' = write_offset rb \/
     exists x, write_offset rb' = Z.land (u64 x) (u64 (size rb - 1))).
Proof.
  unfold ringbuffer_read_fd.
  destruct (amount >? to_long (size rb)).
  - exists rb. cbn. repeat split. left. reflexivity.
  - destruct (ringbuffer_fill_count (Some rb) errno) as [fill e1].
    destruct (if amount >? fill then _ else _) as [amount' e2].
    destruct (u64 _ <=? 0).
    + destruct (negb _ && negb _);
        (eexists; cbn; repeat split; left; reflexivity).
    + eexists. cbn. repeat split. right. eexists. reflexivity.
Qed.

Lemma masked_or_same n old new :
  is_capacity n -> 0 <= old < n ->
  (new = old \/ exists x, new = Z.land (u64 x) (u64 (n - 1))) ->
  0 <= new < n.
Proof.
  intros Hn Hold [-> | [x ->]]; [exact Hold | apply mask_range, Hn].
Qed.

Lemma perform_in_range n o h errno :
  is_capacity n -> offsets_in_range n h ->
  offsets_in_range n (fst (perform o (h, errno))).
Proof.
  intros Hn (rb & -> & Hsz & Hr & Hw). subst n.
  pose proof (capacity_range _ Hn) as Hs.
  destruct o as [fill | | | ptr amount | ptr amount
                 | writev fd amount | readv fd amount];
    cbn [perform fst].
  - eexists. split; [reflexivity |]. cbn. repeat split; lia.
  - exists rb. auto.
  - exists rb. auto.
  - destruct (write_memory_frame rb ptr amount errno)
      as (rb' & -> & Hsz' & Hw' & _ & Hr').
    exists rb'. split; [reflexivity |]. split; [exact Hsz' |].
    split; [| rewrite Hw'; exact Hw].
    apply (masked_or_same _ (read_offset rb)); auto.
  - destruct (read_memory_frame rb ptr amount errno)
      as (rb' & -> & Hsz' & Hr' & Hw').
    exists rb'. split; [reflexivity |]. split; [exact Hsz' |].
    split; [rewrite Hr'; exact Hr |].
    apply (masked_or_same _ (write_offset rb)); auto.
  - destruct (write_fd_frame writev rb fd amount errno)
      as (rb' & -> & Hsz' & Hw' & _ & Hr').
    exists rb'. split; [reflexivity |]. split; [exact Hsz' |].
    split; [| rewrite Hw'; exact Hw].
    apply (masked_or_same _ (read_offset rb)); auto.
  - destruct (read_fd_frame readv rb fd amount errno)
      as (rb' & -> & Hsz' & Hr' & Hw').
    exists rb'. split; [reflexivity |]. split; [exact Hsz' |].
    split; [rewrite Hr'; exact Hr |].
    apply (masked_or_same _ (write_offset rb)); auto.
Qed.

Lemma perform_all_in_range n ops h errno :
  is_capacity n -> offsets_in_range n h ->
  offsets_in_range n (fst (perform_all ops (h, errno))).
Proof.
  intros Hn. revert h errno.
  induction ops as [| o ops IH]; intros h errno Hin; [exact Hin |].
  cbn [perform_all fold_left].
  destruct (perform o (h, errno)) as [h' errno'] eqn:Hstep.
  apply IH. replace h' with (fst (perform o (h, errno))) by (rewrite Hstep; reflexivity).
  apply perform_in_range; assumption.
Qed.

(** C9: starting from a flushed buffer whose capacity is a power of two,
    after every sequence of operations (flush, fill count, free count,
    memory and descriptor transfers, with any arguments and any behaviour
    of the operating system) the handle still points to a buffer of the
    same capacity whose read and write offsets lie in [[0, capacity)]:
    each update is masked with [capacity - 1]. *)
Theorem offsets_stay_in_range rb fill errno ops :
  is_capacity (size rb) ->
  let '(_, h, e) := ringbuffer_flush (Some rb) fill errno in
  offsets_in_range (size rb) h /\
  offsets_in_range (size rb) (fst (perform_all ops (h, e))) /\
  (forall x, 0 <= Z.land (u64 x) (u64 (size rb - 1)) < size rb).
Proof.
  intros Hn. pose proof (capacity_range _ Hn) as Hs.
  cbn [ringbuffer_flush].
  assert (Hstart : offsets_in_range (size rb)
            (Some (set_write_offset 0 (set_read_offset 0
               (set_storage (memset (storage rb) 0 fill (size rb)) rb))))).
  { eexists. split; [reflexivity |]. cbn. repeat split; lia. }
  split; [exact Hstart |]. split.
  - apply perform_all_in_range; assumption.
  - intros x. apply mask_range, Hn.
Qed.

Lemma offsets_stay_in_range_witness :
  let rb := mk_ringbuffer 4 7 9 [Byte.x01; Byte.x02; Byte.x03; Byte.x04] in
  let ops := [WriteFrom (Some [Byte.x0a; Byte.x0b; Byte.x0c]) 3;
              DrainToDescriptor (fun _ _ _ => mk_sysret (-1) EAGAIN []) 5 2;
              ReadInto None 1; FreeCount; Flush Byte.x00;
              FillFromDescriptor (fun _ _ e => mk_sysret 3 e []) 5 4] in
  let '(_, h, e) := ringbuffer_flush (Some rb) Byte.xff 0 in
  offsets_in_range (size rb) h /\
  offsets_in_range (size rb) (fst (perform_all ops (h, e))) /\
  (forall x, 0 <= Z.land (u64 x) (u64 (size rb - 1)) < size rb).
Proof.
  apply (offsets_stay_in_range
           (mk_ringbuffer 4 7 9 [Byte.x01; Byte.x02; Byte.x03; Byte.x04])
           Byte.xff 0
           [WriteFrom (Some [Byte.x0a; Byte.x0b; Byte.x0c]) 3;
            DrainToDescriptor (fun _ _ _ => mk_sysret (-1) EAGAIN []) 5 2;
            ReadInto None 1; FreeCount; Flush Byte.x00;
            FillFromDescriptor (fun _ _ e => mk_sysret 3 e []) 5 4]).
  split; [cbn; lia | reflexivity].
Defined.

(** * Further properties of the code *)

(** ** Bytes of composed lists *)

Lemma byte_at_app (l1 l2 : list byte) j :
  0 <= j ->
  byte_at (l1 ++ l2) j =
  if j <? Z.of_nat (length l1) then byte_at l1 j
  else byte_at l2 (j - Z.of_nat (length l1)).
Proof.
  intros Hj. unfold byte_at.
  destruct (Z.ltb_spec j (Z.of_nat (length l1))) as [Hin | Hout].
  - apply lookup_app_l. lia.
  - rewrite lookup_app_r by lia. f_equal. lia.
Qed.

Lemma byte_at_take (l : list byte) n j :
  0 <= n -> 0 <= j ->
  byte_at (take (Z.to_nat n) l) j = if j <? n then byte_at l j else None.
Proof.
  intros Hn Hj. unfold byte_at.
  destruct (Z.ltb_spec j n) as [Hin | Hout].
  - apply lookup_take_lt. lia.
  - apply lookup_take_ge. lia.
Qed.

Lemma byte_at_drop (l : list byte) n j :
  0 <= n -> 0 <= j ->
  byte_at (drop (Z.to_nat n) l) j = byte_at l (n + j).
Proof.
  intros Hn Hj. unfold byte_at. rewrite lookup_drop. f_equal. lia.
Qed.

Lemma byte_at_beyond (l : list byte) j :
  Z.of_nat (length l) <= j -> byte_at l j = None.
Proof. intros Hj. unfold byte_at. apply lookup_ge_None_2. lia. Qed.

(** ** The unread bytes *)

Lemma unread_byte_at rb j :
  valid rb -> 0 <= j ->
  byte_at (unread rb) j =
  if j <? fill_level rb
  then byte_at (storage rb) ((read_offset rb + j) mod size rb)
  else None.
Proof.
  intros Hv Hj. pose proof (capacity_range _ (valid_size _ Hv)) as Hs.
  pose proof (valid_read _ Hv) as Hr. pose proof (valid_storage _ Hv) as Hst.
  pose proof (fill_level_range _ Hv) as Hf.
  unfold unread. rewrite byte_at_take by lia.
  destruct (Z.ltb_spec j (fill_level rb)) as [Hin | Hout]; [| reflexivity].
  rewrite byte_at_drop, byte_at_app by lia.
  mod_split (read_offset rb + j) (size rb); split_tests; try lia.
  - reflexivity.
  - f_equal. lia.
Qed.

Lemma unread_length rb :
  valid rb -> Z.of_nat (length (unread rb)) = fill_level rb.
Proof.
  intros Hv. pose proof (valid_read _ Hv) as Hr.
  pose proof (valid_storage _ Hv) as Hst.
  pose proof (fill_level_range _ Hv) as Hf.
  unfold unread. rewrite length_take, length_drop, length_app. lia.
Qed.

(** Storing [b] bytes of [data] behind the write offset, for [b] below the
    free space, appends them to the unread bytes. *)
Lemma unread_after_store rb (st : list byte) (data : list byte) b :
  valid rb -> 0 <= b < free_space rb -> b <= Z.of_nat (length data) ->
  length st = length (storage rb) ->
  (forall i, 0 <= i < size rb ->
     byte_at st i =
     if (i - write_offset rb) mod size rb <? b
     then byte_at data ((i - write_offset rb) mod size rb)
     else byte_at (storage rb) i) ->
  let rb' := set_write_offset ((write_offset rb + b) mod size rb)
               (set_storage st rb) in
  valid rb' /\ fill_level rb' = fill_level rb + b /\
  unread rb' = unread rb ++ take (Z.to_nat b) data.
Proof.
  intros Hv Hb Hdata Hlen Hst rb'.
  pose proof (capacity_range _ (valid_size _ Hv)) as Hs.
  pose proof (valid_read _ Hv) as Hr. pose proof (valid_write _ Hv) as Hw.
  pose proof (fill_level_range _ Hv) as Hf.
  assert (Hv' : valid rb').
  { constructor; cbn; [apply Hv | apply Hv | apply Z.mod_pos_bound; lia |].
    rewrite Hlen. apply Hv. }
  assert (Hfill : fill_level rb' = fill_level rb + b).
  { unfold free_space, fill_level in *. cbn. mod_elim; lia. }
  split; [exact Hv' |]. split; [exact Hfill |].
  apply byte_at_ext. intros j Hj.
  rewrite (unread_byte_at _ j Hv') by lia. rewrite Hfill.
  rewrite byte_at_app by lia. rewrite (unread_length _ Hv).
  cbn [storage read_offset size rb' set_write_offset set_storage].
  destruct (Z.ltb_spec j (fill_level rb + b)) as [Hin | Hout].
  - assert (Hi : 0 <= (read_offset rb + j) mod size rb < size rb)
      by (apply Z.mod_pos_bound; lia).
    rewrite Hst by lia.
    destruct (Z.ltb_spec j (fill_level rb)) as [Hold | Hnew].
    + rewrite (unread_byte_at _ j Hv) by lia.
      assert (Hout : b <= ((read_offset rb + j) mod size rb - write_offset rb)
                          mod size rb).
      { clear Hi Hst Hfill Hv'. unfold free_space, fill_level in *.
        mod_elim; lia. }
      split_tests; try lia. reflexivity.
    + assert (Hpos : ((read_offset rb + j) mod size rb - write_offset rb)
                       mod size rb = j - fill_level rb).
      { clear Hi Hst Hfill Hv'. unfold free_space, fill_level in *.
        mod_elim; lia. }
      rewrite Hpos, byte_at_take by lia.
      split_tests; try lia. reflexivity.
  - split_tests; try lia.
    symmetry. apply byte_at_beyond. rewrite length_take. lia.
Qed.

(** ** Well-formedness is kept *)

Lemma write_memory_keeps_valid rb ptr amount errno :
  valid rb ->
  exists rb',
    m_rb (ringbuffer_write_memory (Some rb) ptr amount errno) = Some rb' /\
    valid rb' /\ size rb' = size rb.
Proof.
  intros Hv. pose proof (capacity_range _ (valid_size _ Hv)) as Hs.
  destruct (Z_le_gt_dec amount (size rb)) as [Hle | Hgt].
  - rewrite (write_memory_valid _ Hv) by lia. cbn [m_rb].
    eexists. split; [reflexivity |]. split; [| reflexivity].
    apply valid_set_read_offset; [exact Hv |]. apply Z.mod_pos_bound. lia.
  - unfold ringbuffer_write_memory. rewrite (size_to_long _ Hv).
    destruct (Z.gtb_spec amount (size rb)); [| lia].
    exists rb. auto.
Qed.

Lemma read_memory_keeps_valid rb ptr amount errno :
  valid rb ->
  (forall buffer, ptr = Some buffer ->
     0 <= amount <= Z.of_nat (length buffer)) ->
  exists rb',
    m_rb (ringbuffer_read_memory (Some rb) ptr amount errno) = Some rb' /\
    valid rb' /\ size rb' = size rb.
Proof.
  intros Hv Hptr. pose proof (capacity_range _ (valid_size _ Hv)) as Hs.
  pose proof (free_space_range _ Hv) as Hfree.
  pose proof (valid_write _ Hv) as Hw.
  destruct (Z_le_gt_dec amount (size rb)) as [Hle | Hgt].
  - rewrite (read_memory_valid _ Hv) by lia. cbn [m_rb].
    eexists. split; [reflexivity |]. split; [| destruct ptr; reflexivity].
    destruct ptr as [buffer |].
    + specialize (Hptr buffer eq_refl).
      destruct (Z_lt_le_dec (Z.min amount (free_space rb)) (size rb))
        as [Hlt | Hfull].
      * apply valid_after_copy_in; [exact Hv | lia | lia].
      * replace (Z.min amount (free_space rb)) with (size rb) by lia.
        replace ((write_offset rb + size rb) mod size rb)
          with (write_offset rb)
          by (mod_split (write_offset rb + size rb) (size rb); lia).
        unfold copy_in. rewrite Z.ltb_irrefl.
        destruct (Z.gtb_spec (write_offset rb) (write_offset rb)); [lia |].
        constructor; cbn; apply Hv.
    + constructor; cbn; [apply Hv | apply Hv | | apply Hv].
      apply Z.mod_pos_bound. lia.
  - unfold ringbuffer_read_memory. rewrite (size_to_long _ Hv).
    destruct (Z.gtb_spec amount (size rb)); [| lia].
    exists rb. auto.
Qed.

(** ** Counting and flushing *)

(** X1: on a well-formed buffer the fill count and the free count add up
    to the capacity; the fill count is the number of unread bytes and
    stays below the capacity, so the free count is never 0; [errno] is
    left alone. *)
Theorem fill_and_free_counts rb errno :
  valid rb ->
  let fill := ringbuffer_fill_count (Some rb) errno in
  let free := ringbuffer_free_count (Some rb) errno in
  fst fill + fst free = size rb /\
  fst fill = Z.of_nat (length (unread rb)) /\
  0 <= fst fill < size rb /\ 0 < fst free <= size rb /\
  snd fill = errno /\ snd free = errno.
Proof.
  intros Hv fill free. subst fill free.
  pose proof (fill_level_range _ Hv) as Hf.
  rewrite (fill_count_valid _ Hv), (free_count_valid _ Hv).
  rewrite (unread_length _ Hv). unfold free_space. cbn [fst snd].
  repeat split; lia.
Qed.

Lemma fill_and_free_counts_witness :
  let rb := mk_ringbuffer 8 6 1 (replicate 8 Byte.x00) in
  let fill := ringbuffer_fill_count (Some rb) 0 in
  let free := ringbuffer_free_count (Some rb) 0 in
  fst fill + fst free = size rb /\
  fst fill = Z.of_nat (length (unread rb)) /\
  0 <= fst fill < size rb /\ 0 < fst free <= size rb /\
  snd fill = 0 /\ snd free = 0.
Proof.
  apply (fill_and_free_counts (mk_ringbuffer 8 6 1 (replicate 8 Byte.x00)) 0).
  constructor; cbn; [split; [lia | reflexivity] | lia | lia | reflexivity].
Defined.

(** X2: [ringbuffer_flush] on a buffer with a sound capacity and storage
    area returns 0, leaves [errno] alone and gives a well-formed buffer of
    the same capacity with both offsets at 0, every storage byte equal to
    the fill byte, nothing unread, fill count 0 and free count equal to
    the capacity, whatever the offsets and contents were before. *)
Theorem flush_resets rb fill errno :
  is_capacity (size rb) -> Z.of_nat (length (storage rb)) = size rb ->
  exists rb',
    ringbuffer_flush (Some rb) fill errno = (0, Some rb', errno) /\
    valid rb' /\ size rb' = size rb /\
    read_offset rb' = 0 /\ write_offset rb' = 0 /\
    (forall i, 0 <= i < size rb -> byte_at (storage rb') i = Some fill) /\
    unread rb' = [] /\
    fst (ringbuffer_fill_count (Some rb') errno) = 0 /\
    fst (ringbuffer_free_count (Some rb') errno) = size rb.
Proof.
  intros Hn Hst.
  destruct (flush_valid rb fill errno Hn Hst)
    as (rb' & Hflush & Hv' & He' & Hsz' & Hst').
  assert (Hoff : read_offset rb' = 0 /\ write_offset rb' = 0).
  { cbn in Hflush. injection Hflush as <-. split; reflexivity. }
  destruct Hoff as [Hr' Hw'].
  assert (Hfill : fill_level rb' = 0) by (apply fill_level_empty; assumption).
  exists rb'. split; [exact Hflush |]. split; [exact Hv' |].
  split; [exact Hsz' |]. split; [exact Hr' |]. split; [exact Hw' |].
  split; [| split; [| split]].
  - intros i Hi. rewrite Hst'. unfold byte_at.
    apply lookup_replicate_2. lia.
  - unfold unread. rewrite Hfill. reflexivity.
  - rewrite (fill_count_valid _ Hv'). exact Hfill.
  - rewrite (free_count_valid _ Hv'). unfold free_space.
    cbn [fst]. lia.
Qed.

Lemma flush_resets_witness :
  let rb := mk_ringbuffer 4 9 2 [Byte.x01; Byte.x02; Byte.x03; Byte.x04] in
  exists rb',
    ringbuffer_flush (Some rb) Byte.x2e 7 = (0, Some rb', 7) /\
    valid rb' /\ size rb' = size rb /\
    read_offset rb' = 0 /\ write_offset rb' = 0 /\
    (forall i, 0 <= i < size rb -> byte_at (storage rb') i = Some Byte.x2e) /\
    unread rb' = [] /\
    fst (ringbuffer_fill_count (Some rb') 7) = 0 /\
    fst (ringbuffer_free_count (Some rb') 7) = size rb.
Proof.
  apply (flush_resets
           (mk_ringbuffer 4 9 2 [Byte.x01; Byte.x02; Byte.x03; Byte.x04])
           Byte.x2e 7).
  - split; [cbn; lia | reflexivity].
  - reflexivity.
Defined.

(** ** The memory transfers as queue operations *)

(** X3: [ringbuffer_write_memory] takes from the front of the queue: for a
    request between 0 and the capacity it returns the amount clamped to
    the number of unread bytes, puts that many of the oldest unread bytes,
    in order, at the start of the destination (whose remaining bytes it
    leaves alone; a [NULL] destination just skips them), and the buffer
    stays well formed with those bytes removed from the unread ones. *)
Theorem read_takes_oldest rb ptr amount errno :
  valid rb -> 0 <= amount <= size rb ->
  (forall dst, ptr = Some dst -> amount <= Z.of_nat (length dst)) ->
  let r := ringbuffer_write_memory (Some rb) ptr amount errno in
  let c := Z.min amount (Z.of_nat (length (unread rb))) in
  m_ret r = c /\ m_errno r = errno /\
  m_buf r = option_map
              (fun dst => take (Z.to_nat c) (unread rb) ++ drop (Z.to_nat c) dst)
              ptr /\
  exists rb',
    m_rb r = Some rb' /\ valid rb' /\
    unread rb' = drop (Z.to_nat c) (unread rb).
Proof.
  intros Hv Ha Hptr r c. subst r c.
  pose proof (capacity_range _ (valid_size _ Hv)) as Hs.
  pose proof (fill_level_range _ Hv) as Hf.
  pose proof (valid_read _ Hv) as Hr.
  rewrite (unread_length _ Hv).
  rewrite (write_memory_valid _ Hv) by lia.
  set (c := Z.min amount (fill_level rb)).
  assert (Hc : 0 <= c <= fill_level rb) by lia.
  cbn [m_ret m_errno m_buf m_rb].
  split; [reflexivity |]. split; [reflexivity |]. split.
  - destruct ptr as [dst |]; [| reflexivity]. cbn [option_map]. f_equal.
    specialize (Hptr dst eq_refl).
    apply byte_at_ext. intros j Hj.
    rewrite (copy_out_byte_at _ Hv) by lia.
    rewrite byte_at_take_drop by (rewrite ?(unread_length _ Hv); lia).
    destruct (Z.ltb_spec j c) as [Hin | Hout]; [| reflexivity].
    rewrite (unread_byte_at _ j Hv) by lia.
    destruct (Z.ltb_spec j (fill_level rb)); [reflexivity | lia].
  - assert (Hv' : valid (set_read_offset ((read_offset rb + c) mod size rb) rb)).
    { apply valid_set_read_offset; [exact Hv |]. apply Z.mod_pos_bound. lia. }
    eexists. split; [reflexivity |]. split; [exact Hv' |].
    assert (Hfill : fill_level (set_read_offset
                                  ((read_offset rb + c) mod size rb) rb)
                    = fill_level rb - c).
    { pose proof (valid_write _ Hv) as Hw. clearbody c. clear Hv'.
      unfold fill_level in *. cbn. mod_elim; lia. }
    apply byte_at_ext. intros j Hj.
    rewrite (unread_byte_at _ j Hv') by lia.
    rewrite byte_at_drop, (unread_byte_at _ (c + j) Hv) by lia.
    rewrite Hfill. cbn [storage read_offset size set_read_offset].
    split_tests; try lia; [| reflexivity].
    f_equal. rewrite Zplus_mod_idemp_l. f_equal. lia.
Qed.

Lemma read_takes_oldest_witness :
  let rb := mk_ringbuffer 4 3 1 [Byte.x0b; Byte.x00; Byte.x00; Byte.x0a] in
  let ptr := Some [Byte.x09; Byte.x09; Byte.x09] in
  let r := ringbuffer_write_memory (Some rb) ptr 3 0 in
  let c := Z.min 3 (Z.of_nat (length (unread rb))) in
  m_ret r = c /\ m_errno r = 0 /\
  m_buf r = option_map
              (fun dst => take (Z.to_nat c) (unread rb) ++ drop (Z.to_nat c) dst)
              ptr /\
  exists rb',
    m_rb r = Some rb' /\ valid rb' /\
    unread rb' = drop (Z.to_nat c) (unread rb).
Proof.
  apply (read_takes_oldest
           (mk_ringbuffer 4 3 1 [Byte.x0b; Byte.x00; Byte.x00; Byte.x0a])
           (Some [Byte.x09; Byte.x09; Byte.x09]) 3 0).
  - constructor; cbn; [split; [lia | reflexivity] | lia | lia | reflexivity].
  - cbn; lia.
  - intros dst Heq. injection Heq as <-. cbn. lia.
Defined.

(** X4: [ringbuffer_read_memory] adds to the back of the queue: a request
    that is not negative and is smaller than the free count is accepted
    whole, leaves the source alone and appends its bytes, in order, to the
    unread bytes of a buffer that stays well formed. *)
Theorem write_appends rb src amount errno :
  valid rb -> 0 <= amount ->
  amount < fst (ringbuffer_free_count (Some rb) errno) ->
  amount <= Z.of_nat (length src) ->
  let w := ringbuffer_read_memory (Some rb) (Some src) amount errno in
  m_ret w = amount /\ m_errno w = errno /\ m_buf w = Some src /\
  exists rb',
    m_rb w = Some rb' /\ valid rb' /\
    unread rb' = unread rb ++ take (Z.to_nat amount) src /\
    fst (ringbuffer_fill_count (Some rb') errno)
    = fst (ringbuffer_fill_count (Some rb) errno) + amount.
Proof.
  intros Hv Ha Hfree Hsrc w. subst w.
  pose proof (free_space_range _ Hv) as Hfr.
  rewrite (free_count_valid _ Hv) in Hfree. cbn [fst] in Hfree.
  rewrite (read_memory_valid _ Hv) by lia.
  rewrite Z.min_l by lia. cbn [m_ret m_errno m_buf m_rb].
  split; [reflexivity |]. split; [reflexivity |]. split; [reflexivity |].
  destruct (unread_after_store rb
              (copy_in rb src ((write_offset rb + amount) mod size rb))
              src amount Hv) as (Hv' & Hfill & Hun); try lia.
  - apply (copy_in_length _ Hv); lia.
  - intros i Hi. apply (copy_in_byte_at _ Hv); lia.
  - eexists. split; [reflexivity |]. split; [exact Hv' |].
    split; [exact Hun |].
    rewrite (fill_count_valid _ Hv'), (fill_count_valid _ Hv). exact Hfill.
Qed.

Lemma write_appends_witness :
  let rb := mk_ringbuffer 4 3 0 [Byte.x00; Byte.x00; Byte.x00; Byte.x0a] in
  let src := [Byte.x01; Byte.x02] in
  let w := ringbuffer_read_memory (Some rb) (Some src) 2 0 in
  m_ret w = 2 /\ m_errno w = 0 /\ m_buf w = Some src /\
  exists rb',
    m_rb w = Some rb' /\ valid rb' /\
    unread rb' = unread rb ++ take (Z.to_nat 2) src /\
    fst (ringbuffer_fill_count (Some rb') 0)
    = fst (ringbuffer_fill_count (Some rb) 0) + 2.
Proof.
  apply (write_appends
           (mk_ringbuffer 4 3 0 [Byte.x00; Byte.x00; Byte.x00; Byte.x0a])
           [Byte.x01; Byte.x02] 2 0).
  - constructor; cbn; [split; [lia | reflexivity] | lia | lia | reflexivity].
  - lia.
  - vm_compute. reflexivity.
  - cbn; lia.
Defined.

(** X5: a write request of at least the free count (and at most the
    capacity) is cut down to the free count, and the write offset then
    meets the read offset: the buffer reports a fill count of 0 and a free
    count of the whole capacity, nothing is unread any more, and a read
    request of any size up to the capacity returns 0 bytes. *)
Theorem write_of_all_free_space_empties rb ptr amount errno :
  valid rb ->
  fst (ringbuffer_free_count (Some rb) errno) <= amount <= size rb ->
  (forall src, ptr = Some src -> amount <= Z.of_nat (length src)) ->
  let w := ringbuffer_read_memory (Some rb) ptr amount errno in
  m_ret w = fst (ringbuffer_free_count (Some rb) errno) /\
  exists rb',
    m_rb w = Some rb' /\ valid rb' /\
    write_offset rb' = read_offset rb' /\
    fst (ringbuffer_fill_count (Some rb') errno) = 0 /\
    fst (ringbuffer_free_count (Some rb') errno) = size rb /\
    unread rb' = [] /\
    (forall dst n, 0 <= n <= size rb ->
       m_ret (ringbuffer_write_memory (Some rb') dst n errno) = 0).
Proof.
  intros Hv Ha Hptr w. subst w.
  pose proof (capacity_range _ (valid_size _ Hv)) as Hs.
  pose proof (free_space_range _ Hv) as Hfr.
  pose proof (valid_read _ Hv) as Hr. pose proof (valid_write _ Hv) as Hw.
  rewrite (free_count_valid _ Hv) in *. cbn [fst] in *.
  destruct (read_memory_keeps_valid rb ptr amount errno Hv)
    as (rb' & Hrb' & Hv' & Hsz').
  { intros src Heq. specialize (Hptr src Heq). lia. }
  destruct (read_memory_frame rb ptr amount errno)
    as (rb2 & Hrb2 & _ & Hr2 & _).
  rewrite Hrb' in Hrb2. injection Hrb2 as <-.
  rewrite (read_memory_valid _ Hv) in * by lia. cbn [m_ret m_rb] in *.
  rewrite Z.min_r in * by lia.
  split; [reflexivity |]. exists rb'. split; [exact Hrb' |].
  split; [exact Hv' |].
  assert (Hmeet : write_offset rb' = read_offset rb').
  { injection Hrb' as <-. rewrite Hr2.
    destruct ptr; cbn; unfold free_space, fill_level; mod_elim; lia. }
  assert (Hfill : fill_level rb' = 0).
  { apply fill_level_empty; [exact Hv' |]. unfold empty. congruence. }
  split; [exact Hmeet |]. split; [| split; [| split]].
  - rewrite (fill_count_valid _ Hv'). exact Hfill.
  - rewrite (free_count_valid _ Hv'). unfold free_space. cbn [fst]. lia.
  - unfold unread. rewrite Hfill. reflexivity.
  - intros dst n Hn. rewrite (write_memory_valid _ Hv') by lia.
    cbn [m_ret]. lia.
Qed.

Lemma write_of_all_free_space_empties_witness :
  let rb := mk_ringbuffer 4 1 3 [Byte.x00; Byte.x0a; Byte.x0b; Byte.x00] in
  let ptr := Some [Byte.x01; Byte.x02] in
  let w := ringbuffer_read_memory (Some rb) ptr 2 0 in
  m_ret w = fst (ringbuffer_free_count (Some rb) 0) /\
  exists rb',
    m_rb w = Some rb' /\ valid rb' /\
    write_offset rb' = read_offset rb' /\
    fst (ringbuffer_fill_count (Some rb') 0) = 0 /\
    fst (ringbuffer_free_count (Some rb') 0) = size rb /\
    unread rb' = [] /\
    (forall dst n, 0 <= n <= size rb ->
       m_ret (ringbuffer_write_memory (Some rb') dst n 0) = 0).
Proof.
  apply (write_of_all_free_space_empties
           (mk_ringbuffer 4 1 3 [Byte.x00; Byte.x0a; Byte.x0b; Byte.x00])
           (Some [Byte.x01; Byte.x02]) 2 0).
  - constructor; cbn; [split; [lia | reflexivity] | lia | lia | reflexivity].
  - vm_compute. split; discriminate.
  - intros src Heq. injection Heq as <-. cbn. lia.
Defined.

(** ** Segments and scattered bytes *)

Lemma scatter_length iov : forall st data,
  iov_in_bounds (Z.of_nat (length st)) iov ->
  length (scatter st iov data) = length st.
Proof.
  induction iov as [| v iov IH]; intros st data Hin; [reflexivity |].
  apply Forall_cons in Hin as [(Hb & Hl & Hbl) Hrest].
  cbn [scatter].
  assert (Hstep : length (memcpy st (iov_base v) data 0
                            (Z.min (iov_len v) (Z.of_nat (length data))))
                  = length st) by (apply memcpy_length; lia).
  rewrite IH; [exact Hstep |]. rewrite Hstep. exact Hrest.
Qed.

(** The bytes a vectored read delivers land behind the write offset, in
    order, wrapping at the end of the storage. *)
Lemma scatter_store rb (data : list byte) c b :
  valid rb -> 0 <= b <= c -> c < size rb ->
  Z.of_nat (length data) = b ->
  forall i, 0 <= i < size rb ->
    byte_at (scatter (storage rb)
               (span_iov (write_offset rb) c (size rb)) data) i =
    if (i - write_offset rb) mod size rb <? b
    then byte_at data ((i - write_offset rb) mod size rb)
    else byte_at (storage rb) i.
Proof.
  intros Hv Hb Hc Hlen i Hi.
  pose proof (valid_write _ Hv) as Hw. pose proof (valid_storage _ Hv) as Hst.
  unfold span_iov.
  mod_split (write_offset rb + c) (size rb).
  - destruct (Z.ltb_spec (write_offset rb) (write_offset rb + c)) as [Hpos | Hz].
    + cbn [scatter iov_base iov_len]. rewrite Hlen, Z.min_r by lia.
      rewrite memcpy_byte_at by lia.
      mod_split (i - write_offset rb) (size rb); split_tests; try lia;
        solve [reflexivity | f_equal; lia].
    + destruct (Z.gtb_spec (write_offset rb) (write_offset rb + c)); [lia |].
      cbn [scatter].
      mod_split (i - write_offset rb) (size rb); split_tests; try lia;
        reflexivity.
  - destruct (Z.ltb_spec (write_offset rb)
                (write_offset rb + c - size rb)); [lia |].
    destruct (Z.gtb_spec (write_offset rb)
                (write_offset rb + c - size rb)); [| lia].
    cbn [scatter iov_base iov_len]. rewrite Hlen.
    set (n1 := Z.min (size rb - write_offset rb) b).
    assert (Hlen1 : length (memcpy (storage rb) (write_offset rb) data 0 n1)
                    = length (storage rb))
      by (apply memcpy_length; lia).
    assert (Hdrop : Z.of_nat (length (drop (Z.to_nat n1) data)) = b - n1)
      by (rewrite length_drop; lia).
    rewrite Hdrop.
    set (n2 := Z.min (write_offset rb + c - size rb) (b - n1)).
    rewrite memcpy_byte_at by lia.
    destruct (Z.leb_spec 0 i); [| lia].
    destruct (Z.ltb_spec i (0 + n2)) as [Hin2 | Hout2]; cbn [andb].
    + rewrite byte_at_drop by lia.
      mod_split (i - write_offset rb) (size rb); split_tests; try lia.
      f_equal. lia.
    + rewrite memcpy_byte_at by lia.
      mod_split (i - write_offset rb) (size rb); split_tests; try lia;
        solve [reflexivity | f_equal; lia].
Qed.

Lemma write_fd_keeps_valid sys rb fd amount errno :
  valid rb ->
  exists rb',
    f_rb (ringbuffer_write_fd sys (Some rb) fd amount errno) = Some rb' /\
    valid rb' /\ size rb' = size rb.
Proof.
  intros Hv. pose proof (capacity_range _ (valid_size _ Hv)) as Hs.
  destruct (write_fd_frame sys rb fd amount errno)
    as (rb' & Hrb & Hsz & Hw & Hst & Hr).
  exists rb'. split; [exact Hrb |]. split; [| exact Hsz].
  constructor; rewrite ?Hsz, ?Hw, ?Hst; try apply Hv.
  apply (masked_or_same _ (read_offset rb)); [apply Hv | apply Hv | exact Hr].
Qed.

Lemma read_fd_keeps_valid sys rb fd amount errno :
  valid rb ->
  exists rb',
    f_rb (ringbuffer_read_fd sys (Some rb) fd amount errno) = Some rb' /\
    valid rb' /\ size rb' = size rb.
Proof.
  intros Hv. pose proof (capacity_range _ (valid_size _ Hv)) as Hs.
  pose proof (valid_storage _ Hv) as Hst.
  destruct (Z_le_gt_dec amount (size rb)) as [Hle | Hgt].
  - rewrite (read_fd_valid _ _ Hv) by lia.
    set (iov := span_iov _ _ _). set (r := sys fd iov errno).
    assert (Hlen : length (scatter (storage rb) iov (sys_data r))
                   = length (storage rb)).
    { apply scatter_length. rewrite Hst.
      apply span_iov_in_bounds; [lia | apply Hv]. }
    destruct (u64 (sys_ret r) <=? 0); [destruct (would_block _) |];
      cbn [f_rb]; (eexists; split; [reflexivity |]; split; [| reflexivity]);
      constructor; cbn; rewrite ?Hlen; try apply Hv.
    apply Z.mod_pos_bound. lia.
  - unfold ringbuffer_read_fd. rewrite (size_to_long _ Hv).
    destruct (Z.gtb_spec amount (size rb)); [| lia].
    exists rb. auto.
Qed.

(** ** Sequences of operations *)

Lemma perform_keeps_valid o rb errno :
  valid rb -> caller_contract o ->
  exists rb',
    fst (perform o (Some rb, errno)) = Some rb' /\
    valid rb' /\ size rb' = size rb.
Proof.
  intros Hv Hc.
  destruct o as [fill | | | ptr amount | ptr amount
                 | writev fd amount | readv fd amount];
    cbn [perform fst].
  - destruct (flush_valid rb fill errno (valid_size _ Hv) (valid_storage _ Hv))
      as (rb' & Hflush & Hv' & _ & Hsz' & _).
    rewrite Hflush. exists rb'. auto.
  - exists rb. auto.
  - exists rb. auto.
  - apply write_memory_keeps_valid. exact Hv.
  - apply read_memory_keeps_valid; [exact Hv |].
    intros buffer ->. exact Hc.
  - apply write_fd_keeps_valid. exact Hv.
  - apply read_fd_keeps_valid. exact Hv.
Qed.

(** X6: from any well-formed buffer, after every sequence of operations
    whose memory transfers come with enough room at a non-[NULL] pointer
    (any amounts otherwise, any descriptors, any behaviour of the
    operating system), the buffer is well formed again with the same
    capacity: a power of two, both offsets below it, a storage area of
    that length, and fill count plus free count equal to it. *)
Theorem operations_keep_well_formed ops : forall rb errno,
  valid rb -> Forall caller_contract ops ->
  exists rb',
    fst (perform_all ops (Some rb, errno)) = Some rb' /\
    valid rb' /\ size rb' = size rb /\
    forall e, fst (ringbuffer_fill_count (Some rb') e)
              + fst (ringbuffer_free_count (Some rb') e) = size rb.
Proof.
  induction ops as [| o ops IH]; intros rb errno Hv Hops.
  - exists rb. split; [reflexivity |]. split; [exact Hv |].
    split; [reflexivity |]. intros e.
    rewrite (fill_count_valid _ Hv), (free_count_valid _ Hv).
    unfold free_space. cbn [fst]. lia.
  - apply Forall_cons in Hops as [Ho Hops].
    destruct (perform_keeps_valid o rb errno Hv Ho) as (rb1 & Hstep & Hv1 & Hsz1).
    cbn [perform_all fold_left].
    destruct (perform o (Some rb, errno)) as [h1 e1]. cbn [fst] in Hstep.
    subst h1. destruct (IH rb1 e1 Hv1 Hops) as (rb' & Hrun & Hv' & Hsz' & Hsum).
    exists rb'. split; [exact Hrun |]. split; [exact Hv' |].
    split; [congruence |]. intros e. rewrite Hsum. exact Hsz1.
Qed.

Lemma operations_keep_well_formed_witness :
  let rb := mk_ringbuffer 4 3 1 [Byte.x0b; Byte.x00; Byte.x00; Byte.x0a] in
  let ops := [WriteFrom (Some [Byte.x01; Byte.x02; Byte.x03]) 3;
              FillFromDescriptor
                (fun _ _ e => mk_sysret 2 e [Byte.x05; Byte.x06]) 5 4;
              ReadInto (Some [Byte.x00; Byte.x00]) 2;
              DrainToDescriptor (fun _ _ _ => mk_sysret (-1) 5 []) 5 (-3);
              Flush Byte.xff; WriteFrom None (-1)] in
  exists rb',
    fst (perform_all ops (Some rb, 0)) = Some rb' /\
    valid rb' /\ size rb' = size rb /\
    forall e, fst (ringbuffer_fill_count (Some rb') e)
              + fst (ringbuffer_free_count (Some rb') e) = size rb.
Proof.
  apply (operations_keep_well_formed
           [WriteFrom (Some [Byte.x01; Byte.x02; Byte.x03]) 3;
            FillFromDescriptor
              (fun _ _ e => mk_sysret 2 e [Byte.x05; Byte.x06]) 5 4;
            ReadInto (Some [Byte.x00; Byte.x00]) 2;
            DrainToDescriptor (fun _ _ _ => mk_sysret (-1) 5 []) 5 (-3);
            Flush Byte.xff; WriteFrom None (-1)]
           (mk_ringbuffer 4 3 1 [Byte.x0b; Byte.x00; Byte.x00; Byte.x0a]) 0).
  - constructor; cbn; [split; [lia | reflexivity] | lia | lia | reflexivity].
  - repeat constructor; cbn; lia.
Defined.

(** X7: on a well-formed buffer, a request for more bytes than the
    capacity makes [ringbuffer_write_fd] and [ringbuffer_read_fd] return
    -1 with [errno] set to [ENOMEM] and the buffer as it was, whatever the
    descriptor and the operating system: no system call is made. *)
Theorem descriptor_amount_above_capacity_rejected (sys : syscall)
    rb fd amount errno :
  valid rb -> size rb < amount ->
  ringbuffer_write_fd sys (Some rb) fd amount errno
  = mk_fd_result (-1) (Some rb) ENOMEM /\
  ringbuffer_read_fd sys (Some rb) fd amount errno
  = mk_fd_result (-1) (Some rb) ENOMEM.
Proof.
  intros Hv Ha. unfold ringbuffer_write_fd, ringbuffer_read_fd.
  rewrite (size_to_long _ Hv).
  destruct (Z.gtb_spec amount (size rb)); [| lia].
  split; reflexivity.
Qed.

Lemma descriptor_amount_above_capacity_rejected_witness :
  let sys : syscall := fun _ _ e => mk_sysret 1 e [Byte.x55] in
  let rb := mk_ringbuffer 2 1 0 [Byte.x07; Byte.x08] in
  ringbuffer_write_fd sys (Some rb) 5 3 0
  = mk_fd_result (-1) (Some rb) ENOMEM /\
  ringbuffer_read_fd sys (Some rb) 5 3 0
  = mk_fd_result (-1) (Some rb) ENOMEM.
Proof.
  apply (descriptor_amount_above_capacity_rejected
           (fun _ _ e => mk_sysret 1 e [Byte.x55])
           (mk_ringbuffer 2 1 0 [Byte.x07; Byte.x08]) 5 3 0).
  - constructor; cbn; [split; [lia | reflexivity] | lia | lia | reflexivity].
  - cbn; lia.
Defined.

Lemma perform_null o errno :
  perform o (None, errno) = (None, EINVAL).
Proof. destruct o; reflexivity. Qed.

(** X8: on a [NULL] handle every function (flush, the two counts, the
    memory and the descriptor transfers) returns -1 with [errno] set to
    [EINVAL], whatever its other arguments, makes no system call and
    leaves the caller's memory alone; every sequence of at least one
    operation ends with the handle still [NULL] and [errno] at
    [EINVAL]. *)
Theorem null_handle_rejected (sys : syscall) fill ptr fd amount errno o ops :
  ringbuffer_flush None fill errno = (-1, None, EINVAL) /\
  ringbuffer_fill_count None errno = (-1, EINVAL) /\
  ringbuffer_free_count None errno = (-1, EINVAL) /\
  ringbuffer_write_memory None ptr amount errno
  = mk_mem_result (-1) None ptr EINVAL /\
  ringbuffer_read_memory None ptr amount errno
  = mk_mem_result (-1) None ptr EINVAL /\
  ringbuffer_write_fd sys None fd amount errno
  = mk_fd_result (-1) None EINVAL /\
  ringbuffer_read_fd sys None fd amount errno
  = mk_fd_result (-1) None EINVAL /\
  perform_all (o :: ops) (None, errno) = (None, EINVAL).
Proof.
  repeat (split; [reflexivity |]).
  cbn [perform_all fold_left]. rewrite perform_null.
  induction ops as [| o' ops IH]; [reflexivity |].
  cbn [fold_left]. rewrite perform_null. exact IH.
Qed.

(** ** The descriptor transfers as queue operations *)

(** Moving the read offset forward by [b] unread bytes drops them from
    the front of the queue. *)
Lemma unread_after_skip rb b :
  valid rb -> 0 <= b <= fill_level rb ->
  let rb' := set_read_offset ((read_offset rb + b) mod size rb) rb in
  valid rb' /\ unread rb' = drop (Z.to_nat b) (unread rb).
Proof.
  intros Hv Hb rb'.
  pose proof (capacity_range _ (valid_size _ Hv)) as Hs.
  pose proof (fill_level_range _ Hv) as Hf.
  pose proof (valid_read _ Hv) as Hr. pose proof (valid_write _ Hv) as Hw.
  assert (Hv' : valid rb').
  { apply valid_set_read_offset; [exact Hv |]. apply Z.mod_pos_bound. lia. }
  split; [exact Hv' |].
  assert (Hfill : fill_level rb' = fill_level rb - b).
  { clear Hv'. unfold fill_level in *. cbn. mod_elim; lia. }
  apply byte_at_ext. intros j Hj.
  rewrite (unread_byte_at _ j Hv') by lia.
  rewrite byte_at_drop, (unread_byte_at _ (b + j) Hv) by lia.
  rewrite Hfill. cbn [storage read_offset size rb' set_read_offset].
  split_tests; try lia; [| reflexivity].
  f_equal. rewrite Zplus_mod_idemp_l. f_equal. lia.
Qed.

(** The segments for [c] bytes from the read offset hold the [c] bytes
    that follow it, wrapping at the end of the storage. *)
Lemma gather_span_byte_at rb c j :
  valid rb -> 0 <= c < size rb -> 0 <= j ->
  byte_at (gather (storage rb) (span_iov (read_offset rb) c (size rb))) j =
  if j <? c then byte_at (storage rb) ((read_offset rb + j) mod size rb)
  else None.
Proof.
  intros Hv Hc Hj.
  pose proof (valid_read _ Hv) as Hr. pose proof (valid_storage _ Hv) as Hst.
  unfold span_iov.
  mod_split (read_offset rb + c) (size rb).
  - destruct (Z.ltb_spec (read_offset rb) (read_offset rb + c)) as [Hpos | Hz].
    + cbn [gather flat_map iov_base iov_len]. rewrite app_nil_r.
      rewrite byte_at_take by lia.
      destruct (Z.ltb_spec j (read_offset rb + c - read_offset rb));
        destruct (Z.ltb_spec j c); try lia; [| reflexivity].
      rewrite byte_at_drop by lia.
      mod_split (read_offset rb + j) (size rb). reflexivity.
    + destruct (Z.gtb_spec (read_offset rb) (read_offset rb + c)); [lia |].
      destruct (Z.ltb_spec j c); [lia | reflexivity].
  - destruct (Z.ltb_spec (read_offset rb)
                (read_offset rb + c - size rb)); [lia |].
    destruct (Z.gtb_spec (read_offset rb)
                (read_offset rb + c - size rb)); [| lia].
    cbn [gather flat_map iov_base iov_len]. rewrite app_nil_r.
    rewrite byte_at_app by lia.
    rewrite length_take, length_drop.
    match goal with
    | |- context [j <? ?n] => destruct (Z.ltb_spec j n) as [Hfirst | Hsecond]
    end.
    + rewrite byte_at_take, byte_at_drop by lia.
      mod_split (read_offset rb + j) (size rb).
      split_tests; try lia. reflexivity.
    + rewrite byte_at_take by lia. change (Z.to_nat 0) with O. rewrite drop_0.
      destruct (Z.ltb_spec j c) as [Hin | Hout]; split_tests; try lia;
        [| reflexivity].
      mod_split (read_offset rb + j) (size rb). f_equal. lia.
Qed.

(** X9: [ringbuffer_write_fd] sends from the front of the queue: for a
    positive request of at most the fill count and at most the free count,
    the segments handed to [writev] hold exactly the oldest [amount] unread
    bytes, in order; when [writev] accepts [b] of them ([0 < b <= amount])
    the function returns [b], leaves [errno] as the call set it, and the
    buffer stays well formed with those [b] bytes removed from the unread
    ones and its storage untouched. *)
Theorem drain_sends_oldest (sys : syscall) rb fd amount errno :
  valid rb -> 0 < amount ->
  amount <= fst (ringbuffer_fill_count (Some rb) errno) ->
  amount <= fst (ringbuffer_free_count (Some rb) errno) ->
  let iov := span_iov (read_offset rb) amount (size rb) in
  let k := sys fd iov errno in
  let d := ringbuffer_write_fd sys (Some rb) fd amount errno in
  gather (storage rb) iov = take (Z.to_nat amount) (unread rb) /\
  (0 < sys_ret k <= amount ->
   f_ret d = sys_ret k /\ f_errno d = sys_errno k /\
   exists rb',
     f_rb d = Some rb' /\ valid rb' /\ storage rb' = storage rb /\
     unread rb' = drop (Z.to_nat (sys_ret k)) (unread rb)).
Proof.
  intros Hv Ha Hfill Hfree iov k d. subst iov k d.
  pose proof (capacity_range _ (valid_size _ Hv)) as Hs.
  pose proof (fill_level_range _ Hv) as Hf.
  rewrite (fill_count_valid _ Hv) in Hfill.
  rewrite (free_count_valid _ Hv) in Hfree. cbn [fst] in *.
  split.
  - apply byte_at_ext. intros j Hj.
    rewrite (gather_span_byte_at _ _ _ Hv), byte_at_take by lia.
    destruct (Z.ltb_spec j amount) as [Hin | Hout]; [| reflexivity].
    rewrite (unread_byte_at _ j Hv) by lia.
    destruct (Z.ltb_spec j (fill_level rb)); [reflexivity | lia].
  - intros Hk. rewrite (write_fd_valid _ _ Hv) by lia.
    rewrite Z.min_l by lia.
    set (k := sys fd _ errno) in *.
    rewrite u64_small by lia.
    destruct (Z.leb_spec (sys_ret k) 0); [lia |].
    cbn [f_ret f_errno f_rb].
    split; [apply to_long_small; lia |]. split; [reflexivity |].
    destruct (unread_after_skip rb (sys_ret k) Hv) as [Hv' Hun]; [lia |].
    eexists. split; [reflexivity |]. split; [exact Hv' |].
    split; [reflexivity | exact Hun].
Qed.

Lemma drain_sends_oldest_witness :
  let sys : syscall := fun _ _ e => mk_sysret 1 e [] in
  let rb := mk_ringbuffer 4 3 1 [Byte.x0b; Byte.x00; Byte.x00; Byte.x0a] in
  let iov := span_iov (read_offset rb) 2 (size rb) in
  let k := sys 5 iov 0 in
  let d := ringbuffer_write_fd sys (Some rb) 5 2 0 in
  gather (storage rb) iov = take (Z.to_nat 2) (unread rb) /\
  (0 < sys_ret k <= 2 ->
   f_ret d = sys_ret k /\ f_errno d = sys_errno k /\
   exists rb',
     f_rb d = Some rb' /\ valid rb' /\ storage rb' = storage rb /\
     unread rb' = drop (Z.to_nat (sys_ret k)) (unread rb)).
Proof.
  apply (drain_sends_oldest (fun _ _ e => mk_sysret 1 e [])
           (mk_ringbuffer 4 3 1 [Byte.x0b; Byte.x00; Byte.x00; Byte.x0a])
           5 2 0).
  - constructor; cbn; [split; [lia | reflexivity] | lia | lia | reflexivity].
  - lia.
  - vm_compute. discriminate.
  - vm_compute. discriminate.
Defined.

(** X10: [ringbuffer_read_fd] adds to the back of the queue what [readv]
    delivers: when the call delivers [b] bytes ([0 < b], at most the
    amount offered, which is the request clamped to the fill count) and
    [b] is below the free count, the function returns [b], leaves [errno]
    as the call set it, and the buffer stays well formed with the
    delivered bytes appended, in order, to the unread ones. *)
Theorem fill_from_descriptor_appends (sys : syscall) rb fd amount errno :
  valid rb -> amount <= size rb ->
  let c := Z.min amount (fst (ringbuffer_fill_count (Some rb) errno)) in
  let k := sys fd (span_iov (write_offset rb) c (size rb)) errno in
  let f := ringbuffer_read_fd sys (Some rb) fd amount errno in
  0 < sys_ret k <= c ->
  Z.of_nat (length (sys_data k)) = sys_ret k ->
  sys_ret k < fst (ringbuffer_free_count (Some rb) errno) ->
  f_ret f = sys_ret k /\ f_errno f = sys_errno k /\
  exists rb',
    f_rb f = Some rb' /\ valid rb' /\
    unread rb' = unread rb ++ sys_data k.
Proof.
  intros Hv Ha c k f. subst c k f.
  pose proof (capacity_range _ (valid_size _ Hv)) as Hs.
  pose proof (fill_level_range _ Hv) as Hf.
  pose proof (valid_storage _ Hv) as Hst.
  rewrite (fill_count_valid _ Hv), (free_count_valid _ Hv). cbn [fst].
  rewrite (read_fd_valid _ _ Hv) by lia.
  set (c := Z.min amount (fill_level rb)).
  set (iov := span_iov (write_offset rb) c (size rb)).
  set (k := sys fd iov errno).
  intros Hk Hdata Hfree.
  rewrite u64_small by lia.
  destruct (Z.leb_spec (sys_ret k) 0); [lia |].
  cbn [f_ret f_errno f_rb].
  split; [apply to_long_small; lia |]. split; [reflexivity |].
  destruct (unread_after_store rb (scatter (storage rb) iov (sys_data k))
              (sys_data k) (sys_ret k) Hv) as (Hv' & _ & Hun); try lia.
  - apply scatter_length. rewrite Hst.
    apply span_iov_in_bounds; [lia | apply Hv].
  - intros i Hi. apply (scatter_store _ _ c); try lia. exact Hv.
  - eexists. split; [reflexivity |]. split; [exact Hv' |].
    rewrite Hun. f_equal. apply take_ge. lia.
Qed.

Lemma fill_from_descriptor_appends_witness :
  let sys : syscall := fun _ _ e => mk_sysret 1 e [Byte.x55] in
  let rb := mk_ringbuffer 4 2 0 [Byte.x00; Byte.x00; Byte.x0a; Byte.x0b] in
  let c := Z.min 2 (fst (ringbuffer_fill_count (Some rb) 0)) in
  let k := sys 5 (span_iov (write_offset rb) c (size rb)) 0 in
  let f := ringbuffer_read_fd sys (Some rb) 5 2 0 in
  f_ret f = sys_ret k /\ f_errno f = sys_errno k /\
  exists rb',
    f_rb f = Some rb' /\ valid rb' /\
    unread rb' = unread rb ++ sys_data k.
Proof.
  apply (fill_from_descriptor_appends (fun _ _ e => mk_sysret 1 e [Byte.x55])
           (mk_ringbuffer 4 2 0 [Byte.x00; Byte.x00; Byte.x0a; Byte.x0b])
           5 2 0).
  - constructor; cbn; [split; [lia | reflexivity] | lia | lia | reflexivity].
  - cbn; lia.
  - vm_compute. split; [reflexivity | discriminate].
  - reflexivity.
  - vm_compute. reflexivity.
Defined.

(** ** Failed and empty system calls *)

Lemma offset_minus_one n x :
  is_capacity n -> (x + u64 (-1)) mod n = (x - 1) mod n.
Proof.
  intros Hn. destruct (capacity_divides _ Hn) as [q Hq].
  change (u64 (-1)) with (2 ^ 64 - 1). rewrite Hq.
  replace (x + (q * n - 1)) with (x - 1 + q * n) by lia.
  apply Z.mod_add. pose proof (capacity_range _ Hn). lia.
Qed.

(** X11: the result of the vectored call is kept in an [unsigned long], so
    a failed call (result -1) is not seen as [<= 0]: on a well-formed
    buffer, for a request of at most capacity bytes, when [writev] fails,
    [ringbuffer_write_fd] returns -1 and moves the read offset back by one
    modulo the capacity, and when [readv] fails, [ringbuffer_read_fd]
    returns -1 and moves the write offset back by one; the other offset
    and the capacity stay as they were. *)
Theorem failed_call_moves_offset_back (writev readv : syscall)
    rb fd amount errno :
  valid rb -> amount <= size rb ->
  let free := fst (ringbuffer_free_count (Some rb) errno) in
  let fill := fst (ringbuffer_fill_count (Some rb) errno) in
  let kw := writev fd (span_iov (read_offset rb) (Z.min amount free) (size rb))
              errno in
  let kr := readv fd (span_iov (write_offset rb) (Z.min amount fill) (size rb))
              errno in
  let d := ringbuffer_write_fd writev (Some rb) fd amount errno in
  let f := ringbuffer_read_fd readv (Some rb) fd amount errno in
  (sys_ret kw = -1 ->
   f_ret d = -1 /\
   f_rb d = Some (set_read_offset ((read_offset rb - 1) mod size rb) rb)) /\
  (sys_ret kr = -1 ->
   f_ret f = -1 /\
   exists rb', f_rb f = Some rb' /\ size rb' = size rb /\
     read_offset rb' = read_offset rb /\
     write_offset rb' = (write_offset rb - 1) mod size rb).
Proof.
  intros Hv Ha free fill kw kr d f. subst free fill kw kr d f.
  rewrite (free_count_valid _ Hv), (fill_count_valid _ Hv). cbn [fst].
  rewrite (write_fd_valid _ _ Hv), (read_fd_valid _ _ Hv) by lia.
  split; intros Hk; rewrite Hk;
    rewrite failed_call_test, failed_call_long,
      (offset_minus_one _ _ (valid_size _ Hv)).
  - split; reflexivity.
  - split; [reflexivity |]. eexists. repeat split.
Qed.

Lemma failed_call_moves_offset_back_witness :
  let writev : syscall := fun _ _ _ => mk_sysret (-1) EAGAIN [] in
  let readv : syscall := fun _ _ _ => mk_sysret (-1) 5 [] in
  let rb := mk_ringbuffer 4 0 2 [Byte.x0a; Byte.x0b; Byte.x00; Byte.x00] in
  let free := fst (ringbuffer_free_count (Some rb) 0) in
  let fill := fst (ringbuffer_fill_count (Some rb) 0) in
  let kw := writev 5 (span_iov (read_offset rb) (Z.min 1 free) (size rb)) 0 in
  let kr := readv 5 (span_iov (write_offset rb) (Z.min 1 fill) (size rb)) 0 in
  let d := ringbuffer_write_fd writev (Some rb) 5 1 0 in
  let f := ringbuffer_read_fd readv (Some rb) 5 1 0 in
  (sys_ret kw = -1 ->
   f_ret d = -1 /\
   f_rb d = Some (set_read_offset ((read_offset rb - 1) mod size rb) rb)) /\
  (sys_ret kr = -1 ->
   f_ret f = -1 /\
   exists rb', f_rb f = Some rb' /\ size rb' = size rb /\
     read_offset rb' = read_offset rb /\
     write_offset rb' = (write_offset rb - 1) mod size rb).
Proof.
  apply (failed_call_moves_offset_back
           (fun _ _ _ => mk_sysret (-1) EAGAIN [])
           (fun _ _ _ => mk_sysret (-1) 5 [])
           (mk_ringbuffer 4 0 2 [Byte.x0a; Byte.x0b; Byte.x00; Byte.x00])
           5 1 0).
  - constructor; cbn; [split; [lia | reflexivity] | lia | lia | reflexivity].
  - cbn; lia.
Defined.





(** ** Rounding and creation *)

Lemma log2_up_below_double s :
  0 < s -> 2 ^ Z.log2_up s < 2 * s.
Proof.
  intros Hs. destruct (Z.eq_dec s 1) as [-> | Hne]; [cbn; lia |].
  pose proof (Z.log2_up_spec s) as [Hlow _]; [lia |].
  assert (0 < Z.log2_up s) by (apply Z.log2_up_pos; lia).
  replace (Z.log2_up s) with (Z.succ (Z.pred (Z.log2_up s))) by lia.
  rewrite Z.pow_succ_r; lia.
Qed.

Lemma unread_nothing rb : valid rb -> empty rb -> unread rb = [].
Proof.
  intros Hv He. unfold unread. rewrite (fill_level_empty _ Hv He).
  reflexivity.
Qed.

(** X13: for a requested size between 1 and [2^63], [next_power_of_two]
    returns less than twice the request, returns a power of two
    unchanged, and rounding its own result changes nothing. *)
Theorem next_power_of_two_tight s :
  0 < s <= 2 ^ 63 ->
  s <= next_power_of_two s < 2 * s /\
  (power_of_two s -> next_power_of_two s = s) /\
  next_power_of_two (next_power_of_two s) = next_power_of_two s.
Proof.
  intros Hs. rewrite (next_power_of_two_log2_up s Hs).
  pose proof (Z.log2_up_nonneg s) as Hk0.
  assert (Hk : Z.log2_up s <= 63) by (apply Z.log2_up_le_pow2; lia).
  split; [| split].
  - destruct (log2_up_least s) as (_ & Hge & _); [lia |].
    split; [exact Hge | apply log2_up_below_double; lia].
  - intros (k & Hk' & ->). rewrite Z.log2_up_pow2 by lia. reflexivity.
  - rewrite next_power_of_two_log2_up.
    + rewrite Z.log2_up_pow2 by lia. reflexivity.
    + split; [apply Z.pow_pos_nonneg; lia |].
      apply Z.pow_le_mono_r; lia.
Qed.

Lemma next_power_of_two_tight_witness :
  10 <= next_power_of_two 10 < 2 * 10 /\
  (power_of_two 10 -> next_power_of_two 10 = 10) /\
  next_power_of_two (next_power_of_two 10) = next_power_of_two 10.
Proof.
  apply (next_power_of_two_tight 10). lia.
Defined.

(** X14: a requested size of 0, or one above [2^63], makes
    [next_power_of_two] wrap around to 0, and a [ringbuffer_create] whose
    allocations succeed then returns 0 with a buffer whose size field is
    0. *)
Theorem next_power_of_two_wraps block alloc st s errno :
  s = 0 \/ 2 ^ 63 < s < 2 ^ 64 ->
  alloc 0 = Some st ->
  next_power_of_two s = 0 /\
  exists rb,
    ringbuffer_create (Some block) alloc s errno = (0, Some rb, errno) /\
    size rb = 0.
Proof.
  intros Hs Halloc.
  assert (Hzero : next_power_of_two s = 0).
  { destruct Hs as [-> | Hs]; [reflexivity |].
    rewrite next_power_of_two_log2 by lia.
    replace (Z.log2 (s - 1)) with 63; [reflexivity |].
    symmetry. apply Z.log2_unique; [lia |].
    change (2 ^ Z.succ 63) with (2 ^ 64). lia. }
  split; [exact Hzero |].
  unfold ringbuffer_create. rewrite Hzero, Halloc.
  eexists. split; reflexivity.
Qed.

Lemma next_power_of_two_wraps_witness :
  next_power_of_two (2 ^ 63 + 5) = 0 /\
  exists rb,
    ringbuffer_create (Some (mk_ringbuffer 1 2 3 []))
      (fun _ => Some []) (2 ^ 63 + 5) 0 = (0, Some rb, 0) /\
    size rb = 0.
Proof.
  apply (next_power_of_two_wraps (mk_ringbuffer 1 2 3 [])
           (fun _ => Some []) [] (2 ^ 63 + 5) 0).
  - right. lia.
  - reflexivity.
Defined.

(** X15: [ringbuffer_create] leaves the offsets as the fresh control block
    holds them, so the buffer is only usable after a flush: for a
    requested size between 1 and [2^62], when both allocations succeed
    and the storage has the size asked for, creation followed by
    [ringbuffer_flush] returns 0 twice, leaves [errno] alone and gives a
    well-formed buffer with nothing unread whose capacity is at least the
    request and less than twice the request. *)
Theorem create_then_flush block alloc st s fill errno :
  0 < s <= 2 ^ 62 ->
  alloc (next_power_of_two s) = Some st ->
  Z.of_nat (length st) = next_power_of_two s ->
  let '(ret0, h0, e0) := ringbuffer_create (Some block) alloc s errno in
  let '(ret1, h1, e1) := ringbuffer_flush h0 fill e0 in
  ret0 = 0 /\ ret1 = 0 /\ e1 = errno /\
  option_map read_offset h0 = Some (read_offset block) /\
  option_map write_offset h0 = Some (write_offset block) /\
  exists rb,
    h1 = Some rb /\ valid rb /\ s <= size rb < 2 * s /\
    unread rb = [] /\
    fst (ringbuffer_free_count (Some rb) errno) = size rb.
Proof.
  intros Hs Halloc Hlen. unfold ringbuffer_create. rewrite Halloc.
  set (rb0 := set_storage st (set_size (next_power_of_two s) block)).
  assert (Hcap : is_capacity (size rb0)).
  { cbn. rewrite next_power_of_two_log2_up by lia.
    pose proof (Z.log2_up_nonneg s) as Hk0.
    assert (Hk : Z.log2_up s <= 62) by (apply Z.log2_up_le_pow2; lia).
    split.
    - split; [apply Z.pow_pos_nonneg; lia |].
      apply Z.pow_lt_mono_r; lia.
    - rewrite Z.log2_pow2 by lia. reflexivity. }
  destruct (flush_valid rb0 fill errno Hcap Hlen)
    as (rb & Hflush & Hv & He & Hsz & _).
  rewrite Hflush.
  split; [reflexivity |]. split; [reflexivity |]. split; [reflexivity |].
  split; [reflexivity |]. split; [reflexivity |].
  exists rb. split; [reflexivity |]. split; [exact Hv |].
  split; [| split; [apply unread_nothing; assumption |]].
  - rewrite Hsz. cbn. rewrite next_power_of_two_log2_up by lia.
    split; [apply log2_up_least; lia | apply log2_up_below_double; lia].
  - rewrite (free_count_valid _ Hv). unfold free_space.
    rewrite (fill_level_empty _ Hv He). cbn [fst]. lia.
Qed.

Lemma create_then_flush_witness :
  let '(ret0, h0, e0) :=
    ringbuffer_create (Some (mk_ringbuffer 7 5 3 []))
      (fun n : Z => Some (replicate (Z.to_nat n) Byte.xff)) 3 0 in
  let '(ret1, h1, e1) := ringbuffer_flush h0 Byte.x00 e0 in
  ret0 = 0 /\ ret1 = 0 /\ e1 = 0 /\
  option_map read_offset h0 = Some 5 /\
  option_map write_offset h0 = Some 3 /\
  exists rb,
    h1 = Some rb /\ valid rb /\ 3 <= size rb < 2 * 3 /\
    unread rb = [] /\
    fst (ringbuffer_free_count (Some rb) 0) = size rb.
Proof.
  apply (create_then_flush (mk_ringbuffer 7 5 3 [])
           (fun n : Z => Some (replicate (Z.to_nat n) Byte.xff))
           (replicate 4 Byte.xff) 3 Byte.x00 0).
  - lia.
  - reflexivity.
  - reflexivity.
Defined.

(** ** Silent losses *)

(** X16: [ringbuffer_read_fd] clamps its request to the fill count, not to
    the free count, so it can write over unread bytes: on a well-formed
    buffer, when [readv] delivers [b] bytes with [b] above the free count
    (and at most the amount offered), the function returns [b], the read
    offset stays where it was, the oldest unread byte is replaced by the
    delivered byte number [free count], and the fill count drops to
    [fill + b - capacity]. *)
Theorem fill_from_descriptor_overwrites (sys : syscall) rb fd amount errno :
  valid rb -> amount <= size rb ->
  let fill := fst (ringbuffer_fill_count (Some rb) errno) in
  let free := fst (ringbuffer_free_count (Some rb) errno) in
  let c := Z.min amount fill in
  let k := sys fd (span_iov (write_offset rb) c (size rb)) errno in
  let f := ringbuffer_read_fd sys (Some rb) fd amount errno in
  free < sys_ret k <= c ->
  Z.of_nat (length (sys_data k)) = sys_ret k ->
  f_ret f = sys_ret k /\
  exists rb',
    f_rb f = Some rb' /\ read_offset rb' = read_offset rb /\
    byte_at (storage rb') (read_offset rb) = byte_at (sys_data k) free /\
    fst (ringbuffer_fill_count (Some rb') errno)
    = fill + sys_ret k - size rb.
Proof.
  intros Hv Ha fill free c k f. subst fill free c k f.
  pose proof (capacity_range _ (valid_size _ Hv)) as Hs.
  pose proof (fill_level_range _ Hv) as Hf.
  pose proof (valid_read _ Hv) as Hr. pose proof (valid_write _ Hv) as Hw.
  destruct (read_fd_keeps_valid sys rb fd amount errno Hv)
    as (rb' & Hrb' & Hv' & _).
  rewrite (fill_count_valid _ Hv), (free_count_valid _ Hv). cbn [fst].
  rewrite (read_fd_valid _ _ Hv) in * by lia.
  set (c := Z.min amount (fill_level rb)) in *.
  set (iov := span_iov (write_offset rb) c (size rb)) in *.
  set (k := sys fd iov errno) in *.
  intros Hk Hdata. pose proof (free_space_range _ Hv) as Hfree.
  assert (Hc : c <= fill_level rb) by (subst c; lia).
  rewrite u64_small in * by lia.
  destruct (Z.leb_spec (sys_ret k) 0); [lia |].
  cbn [f_ret f_rb] in *.
  split; [apply to_long_small; lia |].
  exists rb'. split; [exact Hrb' |].
  injection Hrb' as <-.
  split; [reflexivity |]. split.
  - cbn [storage set_write_offset set_storage].
    rewrite (scatter_store _ _ c (sys_ret k) Hv) by lia.
    assert (Hpos : (read_offset rb - write_offset rb) mod size rb
                   = free_space rb).
    { unfold free_space, fill_level in *. clear Hv'. clearbody c.
      mod_elim; lia. }
    rewrite Hpos. destruct (Z.ltb_spec (free_space rb) (sys_ret k)); [| lia].
    reflexivity.
  - rewrite (fill_count_valid _ Hv'). cbn [fst].
    unfold free_space, fill_level in *.
    cbn [size read_offset write_offset set_write_offset set_storage].
    clear Hv'. clearbody c. mod_elim; lia.
Qed.

Lemma fill_from_descriptor_overwrites_witness :
  let sys : syscall :=
    fun _ _ e => mk_sysret 3 e [Byte.x51; Byte.x52; Byte.x53] in
  let rb := mk_ringbuffer 4 0 3 [Byte.x0a; Byte.x0b; Byte.x0c; Byte.x00] in
  let fill := fst (ringbuffer_fill_count (Some rb) 0) in
  let free := fst (ringbuffer_free_count (Some rb) 0) in
  let c := Z.min 3 fill in
  let k := sys 5 (span_iov (write_offset rb) c (size rb)) 0 in
  let f := ringbuffer_read_fd sys (Some rb) 5 3 0 in
  f_ret f = sys_ret k /\
  exists rb',
    f_rb f = Some rb' /\ read_offset rb' = read_offset rb /\
    byte_at (storage rb') (read_offset rb) = byte_at (sys_data k) free /\
    fst (ringbuffer_fill_count (Some rb') 0)
    = fill + sys_ret k - size rb.
Proof.
  apply (fill_from_descriptor_overwrites
           (fun _ _ e => mk_sysret 3 e [Byte.x51; Byte.x52; Byte.x53])
           (mk_ringbuffer 4 0 3 [Byte.x0a; Byte.x0b; Byte.x0c; Byte.x00])
           5 3 0).
  - constructor; cbn; [split; [lia | reflexivity] | lia | lia | reflexivity].
  - cbn; lia.
  - vm_compute. split; [reflexivity | discriminate].
  - reflexivity.
Defined.

(** X17: on a well-formed buffer with nothing unread, a write request of
    exactly the capacity returns the capacity although it copies no byte
    and moves no offset: buffer, source and [errno] are all as before, so
    the bytes are lost without any sign. *)
Theorem write_of_whole_capacity_stores_nothing rb ptr errno :
  valid rb -> empty rb ->
  ringbuffer_read_memory (Some rb) ptr (size rb) errno
  = mk_mem_result (size rb) (Some rb) ptr errno.
Proof.
  intros Hv He. pose proof (capacity_range _ (valid_size _ Hv)) as Hs.
  pose proof (valid_write _ Hv) as Hw.
  rewrite (read_memory_valid _ Hv) by lia.
  unfold free_space. rewrite (fill_level_empty _ Hv He).
  rewrite Z.sub_0_r, Z.min_id.
  assert (Hend : (write_offset rb + size rb) mod size rb = write_offset rb)
    by (mod_split (write_offset rb + size rb) (size rb); lia).
  rewrite Hend. f_equal. f_equal.
  destruct ptr as [buffer |].
  - unfold copy_in. rewrite Z.ltb_irrefl.
    destruct (Z.gtb_spec (write_offset rb) (write_offset rb)); [lia |].
    destruct rb; reflexivity.
  - destruct rb; reflexivity.
Qed.

Lemma write_of_whole_capacity_stores_nothing_witness :
  let rb := mk_ringbuffer 2 1 1 [Byte.x07; Byte.x08] in
  ringbuffer_read_memory (Some rb) (Some [Byte.x01; Byte.x02]) (size rb) 0
  = mk_mem_result (size rb) (Some rb) (Some [Byte.x01; Byte.x02]) 0.
Proof.
  apply (write_of_whole_capacity_stores_nothing
           (mk_ringbuffer 2 1 1 [Byte.x07; Byte.x08])
           (Some [Byte.x01; Byte.x02]) 0).
  - constructor; cbn; [split; [lia | reflexivity] | lia | lia | reflexivity].
  - reflexivity.
Defined.
